(** * ADSI object handles: lifecycle, accessors and interface casts

    A shallow embedding of [object.go] (package [adsi]) and of
    [api/iadsopendsobject.go] (package [api]).

    The Go code is a thin layer over the COM runtime.  Everything the code
    calls on the other side of that boundary (the [IADs] virtual table, the
    [comutil] object factory, the GUID parser of [go-ole]) is kept abstract
    in the [Platform] interface below: the theorems hold for every
    implementation of it. *)

From stdpp Require Import gmap strings list.
From Stdlib Require Import ZArith Lia.

Local Open Scope Z_scope.

(** ** Data *)

(** A non-nil COM interface pointer.  A nullable Go pointer such as
    [*api.IADs] is an [option ptr], with [None] for [nil]. *)
Definition ptr := positive.

(** The address of a handle ([*Object], [*Container], ...). *)
Definition loc := positive.

(** [ole.GUID]: the structured 128-bit identifier. *)
Record ole_GUID := mkGUID {
  Data1 : Z;
  Data2 : Z;
  Data3 : Z;
  Data4 : list Z
}.

(** Modelled from the spec: the error values of the package, declared in
    [errors.go], which is missing.  Section 7 of the design names three
    kinds: the closed-handle error, the invalid-identifier error and the
    platform's own errors, which carry the platform's failure code. *)
Inductive error :=
| ErrClosed
| ErrInvalidGUID
| PlatformError (hr : Z).

(** [type object struct { m sync.RWMutex; iface *api.IADs }].
    The lock is only ever taken exclusively ([Lock]/[Unlock]), so its state
    is one boolean. *)
Record object := mkobject {
  m : bool;
  iface : option ptr
}.

(** The calls that cross into the platform, in the order they are issued. *)
Inductive Event :=
| EvName (p : ptr)
| EvClass (p : ptr)
| EvGUID (p : ptr)
| EvAdsPath (p : ptr)
| EvParent (p : ptr)
| EvSchema (p : ptr)
| EvQueryInterface (p : ptr) (iid : ole_GUID)
| EvRelease (p : ptr)
| EvCreateRemoteObject (server : string) (clsid : option ole_GUID)
    (iid : ole_GUID).

(** The platform: the methods of [api.IADs] reached through the virtual
    table, [comutil.CreateRemoteObject] and [ole.NewGUID].  [P] is the state
    of the COM runtime and of the directory service behind it; a platform
    error is its failure code. *)
Class Platform (P : Type) := {
  IADs_Name : ptr → P → (string * option Z) * P;
  IADs_Class : ptr → P → (string * option Z) * P;
  IADs_GUID : ptr → P → (string * option Z) * P;
  IADs_AdsPath : ptr → P → (string * option Z) * P;
  IADs_Parent : ptr → P → (string * option Z) * P;
  IADs_Schema : ptr → P → (string * option Z) * P;
  IADs_QueryInterface : ptr → ole_GUID → P → (option ptr * option Z) * P;
  IADs_Release : ptr → P → Z * P;
  CreateRemoteObject :
    string → option ole_GUID → ole_GUID → P → (option ptr * option Z) * P;
  NewGUID : string → option ole_GUID
}.

(** The interface identifiers of package [api]: constants declared next
    to each interface, in files that are missing; their values play no
    part. *)
Class InterfaceIDs := {
  IID_IADsContainer : ole_GUID;
  IID_IADsComputer : ole_GUID;
  IID_IADsGroup : ole_GUID;
  IID_IADsOpenDSObject : ole_GUID
}.

(** ** The world the code runs in *)

Record World (P : Type) := mkWorld {
  heap : gmap loc object;   (* the handles allocated so far *)
  comshim : Z;              (* the process-wide counter of package comshim *)
  plat : P;                 (* the platform's own state *)
  trace : list Event        (* platform calls issued, oldest first *)
}.
Arguments mkWorld {P} _ _ _ _.
Arguments heap {P} _.
Arguments comshim {P} _.
Arguments plat {P} _.
Arguments trace {P} _.

(** A Go function is a state transformer that may fail to return: [None]
    stands for a panic (a nil receiver, unlocking a free mutex) or for a
    goroutine blocked for ever (locking a mutex nobody will release). *)
Definition M (P A : Type) : Type := World P → option (A * World P).

Global Instance Go_ret {P} : MRet (M P) := λ A a w, Some (a, w).

Global Instance Go_bind {P} : MBind (M P) := λ A B k c w,
  match c w with
  | Some (a, w') => k a w'
  | None => None
  end.

Definition stuck {P A} : M P A := λ _, None.

Section Adsi.
Context {P : Type} `{!Platform P} `{!InterfaceIDs}.

Local Abbreviation W := (World P).
Local Abbreviation Go := (M P).

(** *** Memory *)

Definition load (o : loc) : Go object :=
  λ w, match heap w !! o with
       | Some h => Some (h, w)
       | None => None
       end.

Definition store (o : loc) (h : object) : Go unit :=
  λ w, Some (tt, mkWorld (<[o := h]> (heap w)) (comshim w) (plat w) (trace w)).

Definition alloc (h : object) : Go loc :=
  λ w, let l := fresh (dom (heap w)) in
       Some (l, mkWorld (<[l := h]> (heap w)) (comshim w) (plat w) (trace w)).

(** *** [sync.RWMutex], used through [Lock] and [Unlock] only *)

Definition Lock (o : loc) : Go unit :=
  h ← load o;
  if m h then stuck else store o (mkobject true (iface h)).

Definition Unlock (o : loc) : Go unit :=
  h ← load o;
  if m h then store o (mkobject false (iface h)) else stuck.

(** *** Package [comshim] *)

Definition comshim_Add (delta : Z) : Go unit :=
  λ w, Some (tt, mkWorld (heap w) (comshim w + delta) (plat w) (trace w)).

Definition comshim_Done : Go unit := comshim_Add (-1).

(** *** Calls into the platform *)

Definition platform {A} (ev : Event) (f : P → A * P) : Go A :=
  λ w, let '(a, p') := f (plat w) in
       Some (a, mkWorld (heap w) (comshim w) p' (trace w ++ [ev])).

(** A platform failure code as a Go [error]. *)
Definition oleerr (e : option Z) : option error := PlatformError <$> e.

(** Modelled from the spec: the execution shim [run], defined in [run.go],
    which is missing.  Section 4.3: it executes the given platform
    call in the threading context COM requires, "returning whatever error
    the call produced".  The closure's captured variables [S] come back
    with its result. *)
Definition run {S} (f : Go (S * option error)) : Go (S * option error) := f.

(** ** [object.go] *)

(** [func NewObject(iface *api.IADs) *Object] *)
Definition NewObject (i : option ptr) : Go loc :=
  comshim_Add 1;;
  alloc (mkobject false i).

(** [func (o *object) closed() bool] *)
Definition closed (o : loc) : Go bool :=
  h ← load o;
  mret (bool_decide (iface h = None)).

(** [o.iface] where the code calls a method through it: a nil pointer
    there does not return. *)
Definition the_iface (o : loc) : Go ptr :=
  h ← load o;
  match iface h with
  | Some p => mret p
  | None => stuck
  end.

(** [o.iface = nil] *)
Definition clear_iface (o : loc) : Go unit :=
  h ← load o;
  store o (mkobject (m h) None).

(** The function literal of [Close]: it releases the interface and
    returns [nil] whatever [Release] answered. *)
Definition Close_func1 (o : loc) : Go (unit * option error) :=
  p ← the_iface o;
  platform (EvRelease p) (IADs_Release p);;
  mret ((), None).

(** [func (o *object) Close()].  The deferred calls run in reverse order
    of their [defer] statements: [comshim.Done] before [Unlock].  The
    result of [run] is dropped. *)
Definition Close (o : loc) : Go unit :=
  Lock o;;
  c ← closed o;
  if c : bool then
    Unlock o
  else
    run (Close_func1 o);;
    clear_iface o;;
    comshim_Done;;
    Unlock o.

(** The function literal of [Name].  It assigns the named results [name]
    and [err] of the method, which come back as the captured state, and
    returns [err]. *)
Definition Name_func1 (o : loc) : Go (string * option error * option error) :=
  p ← the_iface o;
  '(name, e) ← platform (EvName p) (IADs_Name p);
  let err := oleerr e in
  match err with
  | Some _ => mret (name, err, err)
  | None => mret (name, err, None)
  end.

(** [func (o *object) Name() (name string, err error)].  The value
    returned by [run] overwrites [err]. *)
Definition Name (o : loc) : Go (string * option error) :=
  Lock o;;
  c ← closed o;
  if c : bool then
    Unlock o;; mret ("", Some ErrClosed)
  else
    '(name, _, err) ← run (Name_func1 o);
    Unlock o;; mret (name, err).

Definition Class_func1 (o : loc) : Go (string * option error * option error) :=
  p ← the_iface o;
  '(class, e) ← platform (EvClass p) (IADs_Class p);
  let err := oleerr e in
  match err with
  | Some _ => mret (class, err, err)
  | None => mret (class, err, None)
  end.

(** [func (o *object) Class() (class string, err error)] *)
Definition Class (o : loc) : Go (string * option error) :=
  Lock o;;
  c ← closed o;
  if c : bool then
    Unlock o;; mret ("", Some ErrClosed)
  else
    '(class, _, err) ← run (Class_func1 o);
    Unlock o;; mret (class, err).

(** The function literal of [GUID]: [guid] stays [nil] when the platform
    call fails, and is what [ole.NewGUID] made of the string otherwise. *)
Definition GUID_func1 (o : loc)
  : Go (option ole_GUID * option error * option error) :=
  p ← the_iface o;
  '(sguid, e) ← platform (EvGUID p) (IADs_GUID p);
  let err := oleerr e in
  match err with
  | Some _ => mret (None, err, err)
  | None =>
      let guid := NewGUID sguid in
      match guid with
      | None => mret (guid, err, Some ErrInvalidGUID)
      | Some _ => mret (guid, err, None)
      end
  end.

(** [func (o *object) GUID() (guid *ole.GUID, err error)] *)
Definition GUID (o : loc) : Go (option ole_GUID * option error) :=
  Lock o;;
  c ← closed o;
  if c : bool then
    Unlock o;; mret (None, Some ErrClosed)
  else
    '(guid, _, err) ← run (GUID_func1 o);
    Unlock o;; mret (guid, err).

Definition Path_func1 (o : loc) : Go (string * option error * option error) :=
  p ← the_iface o;
  '(path, e) ← platform (EvAdsPath p) (IADs_AdsPath p);
  let err := oleerr e in
  match err with
  | Some _ => mret (path, err, err)
  | None => mret (path, err, None)
  end.

(** [func (o *object) Path() (path string, err error)] *)
Definition Path (o : loc) : Go (string * option error) :=
  Lock o;;
  c ← closed o;
  if c : bool then
    Unlock o;; mret ("", Some ErrClosed)
  else
    '(path, _, err) ← run (Path_func1 o);
    Unlock o;; mret (path, err).

Definition Parent_func1 (o : loc) : Go (string * option error * option error) :=
  p ← the_iface o;
  '(path, e) ← platform (EvParent p) (IADs_Parent p);
  let err := oleerr e in
  match err with
  | Some _ => mret (path, err, err)
  | None => mret (path, err, None)
  end.

(** [func (o *object) Parent() (path string, err error)] *)
Definition Parent (o : loc) : Go (string * option error) :=
  Lock o;;
  c ← closed o;
  if c : bool then
    Unlock o;; mret ("", Some ErrClosed)
  else
    '(path, _, err) ← run (Parent_func1 o);
    Unlock o;; mret (path, err).

Definition Schema_func1 (o : loc) : Go (string * option error * option error) :=
  p ← the_iface o;
  '(path, e) ← platform (EvSchema p) (IADs_Schema p);
  let err := oleerr e in
  match err with
  | Some _ => mret (path, err, err)
  | None => mret (path, err, None)
  end.

(** [func (o *object) Schema() (path string, err error)] *)
Definition Schema (o : loc) : Go (string * option error) :=
  Lock o;;
  c ← closed o;
  if c : bool then
    Unlock o;; mret ("", Some ErrClosed)
  else
    '(path, _, err) ← run (Schema_func1 o);
    Unlock o;; mret (path, err).

(** Modelled from the spec: the constructors of the typed facades,
    defined in [container.go], [computer.go] and [group.go], which are
    missing.  Section 2: a typed facade embeds the handle wrapper;
    section 4.1: a cast constructs "a new, independently-owned typed handle
    wrapping the new interface pointer"; section 5: the process-wide count
    is taken "on handle construction".  So each is [NewObject] at another
    interface type, and the handle it makes is closed by [Close]. *)
Definition NewContainer (i : option ptr) : Go loc :=
  comshim_Add 1;;
  alloc (mkobject false i).

Definition NewComputer (i : option ptr) : Go loc :=
  comshim_Add 1;;
  alloc (mkobject false i).

Definition NewGroup (i : option ptr) : Go loc :=
  comshim_Add 1;;
  alloc (mkobject false i).

(** The function literal of [ToContainer].  Its [err] is a variable of its
    own ([:=]); only the named result [c] is captured. *)
Definition ToContainer_func1 (o : loc) : Go (option loc * option error) :=
  p ← the_iface o;
  '(idispatch, e) ← platform (EvQueryInterface p IID_IADsContainer)
                             (IADs_QueryInterface p IID_IADsContainer);
  let err := oleerr e in
  match err with
  | Some _ => mret (None, err)
  | None => c ← NewContainer idispatch; mret (Some c, None)
  end.

(** [func (o *object) ToContainer() (c *Container, err error)] *)
Definition ToContainer (o : loc) : Go (option loc * option error) :=
  Lock o;;
  c ← closed o;
  if c : bool then
    Unlock o;; mret (None, Some ErrClosed)
  else
    '(c, err) ← run (ToContainer_func1 o);
    Unlock o;; mret (c, err).

Definition ToComputer_func1 (o : loc) : Go (option loc * option error) :=
  p ← the_iface o;
  '(idispatch, e) ← platform (EvQueryInterface p IID_IADsComputer)
                             (IADs_QueryInterface p IID_IADsComputer);
  let err := oleerr e in
  match err with
  | Some _ => mret (None, err)
  | None => c ← NewComputer idispatch; mret (Some c, None)
  end.

(** [func (o *object) ToComputer() (c *Computer, err error)] *)
Definition ToComputer (o : loc) : Go (option loc * option error) :=
  Lock o;;
  c ← closed o;
  if c : bool then
    Unlock o;; mret (None, Some ErrClosed)
  else
    '(c, err) ← run (ToComputer_func1 o);
    Unlock o;; mret (c, err).

Definition ToGroup_func1 (o : loc) : Go (option loc * option error) :=
  p ← the_iface o;
  '(idispatch, e) ← platform (EvQueryInterface p IID_IADsGroup)
                             (IADs_QueryInterface p IID_IADsGroup);
  let err := oleerr e in
  match err with
  | Some _ => mret (None, err)
  | None => g ← NewGroup idispatch; mret (Some g, None)
  end.

(** [func (o *object) ToGroup() (g *Group, err error)] *)
Definition ToGroup (o : loc) : Go (option loc * option error) :=
  Lock o;;
  c ← closed o;
  if c : bool then
    Unlock o;; mret (None, Some ErrClosed)
  else
    '(g, err) ← run (ToGroup_func1 o);
    Unlock o;; mret (g, err).

(** ** [api/iadsopendsobject.go] *)

(** [func NewIADsOpenDSObject(server string, clsid *ole.GUID)
          (ds *IADsOpenDSObject, err error)] *)
Definition NewIADsOpenDSObject (server : string) (clsid : option ole_GUID)
  : Go (option ptr * option error) :=
  '(p, e) ← platform (EvCreateRemoteObject server clsid IID_IADsOpenDSObject)
                     (CreateRemoteObject server clsid IID_IADsOpenDSObject);
  mret (p, oleerr e).

(** ** Client programs *)

(** The operations of a handle. *)
Inductive Op :=
| OpClose
| OpName | OpClass | OpGUID | OpPath | OpParent | OpSchema
| OpToContainer | OpToComputer | OpToGroup.

(** What an operation hands back to its caller. *)
Inductive Result :=
| RNothing
| RString (s : string) (err : option error)
| RGUID (g : option ole_GUID) (err : option error)
| RHandle (h : option loc) (err : option error).

Definition perform (op : Op) (o : loc) : Go Result :=
  match op with
  | OpClose => Close o;; mret RNothing
  | OpName => '(s, e) ← Name o; mret (RString s e)
  | OpClass => '(s, e) ← Class o; mret (RString s e)
  | OpGUID => '(g, e) ← GUID o; mret (RGUID g e)
  | OpPath => '(s, e) ← Path o; mret (RString s e)
  | OpParent => '(s, e) ← Parent o; mret (RString s e)
  | OpSchema => '(s, e) ← Schema o; mret (RString s e)
  | OpToContainer => '(h, e) ← ToContainer o; mret (RHandle h e)
  | OpToComputer => '(h, e) ← ToComputer o; mret (RHandle h e)
  | OpToGroup => '(h, e) ← ToGroup o; mret (RHandle h e)
  end.

(** The answer of each accessor and cast on a closed handle: the zero value
    of its result type and [ErrClosed]. *)
Definition closed_result (op : Op) : Result :=
  match op with
  | OpClose => RNothing
  | OpName | OpClass | OpPath | OpParent | OpSchema =>
      RString "" (Some ErrClosed)
  | OpGUID => RGUID None (Some ErrClosed)
  | OpToContainer | OpToComputer | OpToGroup => RHandle None (Some ErrClosed)
  end.

Definition is_cast (op : Op) : bool :=
  match op with
  | OpToContainer | OpToComputer | OpToGroup => true
  | _ => false
  end.

(** The interface a cast asks the platform for. *)
Definition cast_iid (op : Op) : ole_GUID :=
  match op with
  | OpToComputer => IID_IADsComputer
  | OpToGroup => IID_IADsGroup
  | _ => IID_IADsContainer
  end.

(** A step of a sequential client: construct a handle, or call a method. *)
Inductive Call :=
| CallNewObject (i : option ptr)
| CallOp (op : Op) (o : loc).

Definition call (c : Call) : Go unit :=
  match c with
  | CallNewObject i => NewObject i;; mret ()
  | CallOp op o => perform op o;; mret ()
  end.

Fixpoint calls (cs : list Call) : Go unit :=
  match cs with
  | [] => mret ()
  | c :: cs' => call c;; calls cs'
  end.

(** [n] calls of [Close] in a row. *)
Fixpoint Close_times (n : nat) (o : loc) : Go unit :=
  match n with
  | O => mret ()
  | S n' => Close o;; Close_times n' o
  end.

(** The life of one handle: constructed, then closed [n] times. *)
Definition lifecycle (i : option ptr) (n : nat) : Go unit :=
  l ← NewObject i;
  Close_times n l.

(** The two states of a handle. *)
Inductive State := OPEN | CLOSED.

Definition state_of (h : object) : State :=
  match iface h with
  | None => CLOSED
  | Some _ => OPEN
  end.

(** The world after one platform call. *)
Definition after_platform {A} (ev : Event) (f : P → A * P) (w : W) : W :=
  mkWorld (heap w) (comshim w) (f (plat w)).2 (trace w ++ [ev]).

(** The six string accessors are one body at six platform methods. *)
Definition string_accessor (ev : ptr → Event)
    (f : ptr → P → (string * option Z) * P) (o : loc)
  : Go (string * option error) :=
  Lock o;;
  c ← closed o;
  if c : bool then
    Unlock o;; mret ("", Some ErrClosed)
  else
    '(name, _, err) ← run (
      p ← the_iface o;
      '(name, e) ← platform (ev p) (f p);
      let err := oleerr e in
      match err with
      | Some _ => mret (name, err, err)
      | None => mret (name, err, None)
      end);
    Unlock o;; mret (name, err).

(** What [GUID] makes of the platform's answer. *)
Definition guid_answer (a : string * option Z)
  : option ole_GUID * option error :=
  match a.2 with
  | Some hr => (None, Some (PlatformError hr))
  | None =>
      match NewGUID a.1 with
      | None => (None, Some ErrInvalidGUID)
      | Some g => (Some g, None)
      end
  end.

(** The three casts are one body at three interface identifiers. *)
Definition cast (iid : ole_GUID) (o : loc) : Go (option loc * option error) :=
  Lock o;;
  c ← closed o;
  if c : bool then
    Unlock o;; mret (None, Some ErrClosed)
  else
    '(c, err) ← run (
      p ← the_iface o;
      '(idispatch, e) ← platform (EvQueryInterface p iid)
                                 (IADs_QueryInterface p iid);
      let err := oleerr e in
      match err with
      | Some _ => mret (None, err)
      | None => c ← NewObject idispatch; mret (Some c, None)
      end);
    Unlock o;; mret (c, err).

(** ** Goroutines

    Several callers on the same handles.  A method call is cut at its
    statements: a goroutine is at one of the program points below, and one
    step runs the statement that follows it. *)

Inductive pc :=
| Start                   (* before [o.m.Lock()] *)
| Locked                  (* the lock is held; before [if o.closed()] *)
| Proceeding              (* the test found the handle open; before [run] *)
| Nulling                 (* [Close]: before [o.iface = nil] *)
| Finishing               (* [Close]: before the deferred [comshim.Done()] *)
| Leaving (r : Result)    (* before the deferred [o.m.Unlock()] *)
| Returned (r : Result).  (* the call is over *)

(** The [run(...)] statement of each method, with what it leaves in the
    named results. *)
Definition proceed (op : Op) (o : loc) : Go pc :=
  match op with
  | OpClose => run (Close_func1 o);; mret Nulling
  | OpName => '(s, _, e) ← run (Name_func1 o); mret (Leaving (RString s e))
  | OpClass => '(s, _, e) ← run (Class_func1 o); mret (Leaving (RString s e))
  | OpGUID => '(g, _, e) ← run (GUID_func1 o); mret (Leaving (RGUID g e))
  | OpPath => '(s, _, e) ← run (Path_func1 o); mret (Leaving (RString s e))
  | OpParent => '(s, _, e) ← run (Parent_func1 o); mret (Leaving (RString s e))
  | OpSchema => '(s, _, e) ← run (Schema_func1 o); mret (Leaving (RString s e))
  | OpToContainer =>
      '(h, e) ← run (ToContainer_func1 o); mret (Leaving (RHandle h e))
  | OpToComputer =>
      '(h, e) ← run (ToComputer_func1 o); mret (Leaving (RHandle h e))
  | OpToGroup =>
      '(h, e) ← run (ToGroup_func1 o); mret (Leaving (RHandle h e))
  end.

(** One statement.  [None]: the goroutine cannot move ([Lock] on a held
    mutex blocks; a returned call has nothing left to do). *)
Definition goroutine_step (op : Op) (o : loc) (at_pc : pc) : Go pc :=
  match at_pc with
  | Start => Lock o;; mret Locked
  | Locked =>
      c ← closed o;
      if c : bool then mret (Leaving (closed_result op)) else mret Proceeding
  | Proceeding => proceed op o
  | Nulling => clear_iface o;; mret Finishing
  | Finishing => comshim_Done;; mret (Leaving RNothing)
  | Leaving r => Unlock o;; mret (Returned r)
  | Returned _ => stuck
  end.

(** The result of a call that is over. *)
Definition returned (at_pc : pc) : option Result :=
  match at_pc with
  | Returned r => Some r
  | _ => None
  end.

(** A call run by one goroutine alone, statement after statement. *)
Fixpoint solo (fuel : nat) (op : Op) (o : loc) (at_pc : pc) : Go Result :=
  match returned at_pc with
  | Some r => mret r
  | None =>
      match fuel with
      | O => stuck
      | S fuel' =>
          at_pc' ← goroutine_step op o at_pc;
          solo fuel' op o at_pc'
      end
  end.

Record goroutine := mkgoroutine {
  g_op : Op;
  g_handle : loc;
  g_pc : pc
}.

Record Config := mkConfig {
  world : W;
  pool : list goroutine
}.

(** Goroutine [i] runs one statement. *)
Definition step_at (i : nat) (c : Config) : option Config :=
  match pool c !! i with
  | None => None
  | Some g =>
      match goroutine_step (g_op g) (g_handle g) (g_pc g) (world c) with
      | None => None
      | Some (at_pc', w') =>
          Some (mkConfig w'
                  (<[i := mkgoroutine (g_op g) (g_handle g) at_pc']> (pool c)))
      end
  end.

(** An interleaving: the goroutines that move, in order. *)
Fixpoint schedule (s : list nat) (c : Config) : option Config :=
  match s with
  | [] => Some c
  | i :: s' =>
      match step_at i c with
      | None => None
      | Some c' => schedule s' c'
      end
  end.

(** Where everything starts: no call has begun. *)
Definition initial (c : Config) : Prop :=
  Forall (λ g, g_pc g = Start) (pool c).

(** The program points inside the critical section. *)
Definition holds (at_pc : pc) : bool :=
  match at_pc with
  | Start | Returned _ => false
  | _ => true
  end.

(** The program points of [Close] after the pointer is known to be nil. *)
Definition past_nil (at_pc : pc) : bool :=
  match at_pc with
  | Finishing | Leaving _ | Returned _ => true
  | _ => false
  end.

(** What the lock buys, as an invariant of every interleaving.  A
    goroutine inside the critical section of a handle finds the mutex held
    and is alone there; if it is past the [closed()] test with the handle
    found open, the pointer is still there.  A [Close] past its nil
    assignment, or returned, has left the pointer nil. *)
Definition serialized (c : Config) : Prop :=
  ∀ i g, pool c !! i = Some g →
    (holds (g_pc g) = true →
       ∃ h, heap (world c) !! g_handle g = Some h
         ∧ m h = true
         ∧ (g_pc g = Proceeding → is_Some (iface h))
         ∧ ∀ j g', pool c !! j = Some g' →
                   g_handle g' = g_handle g →
                   holds (g_pc g') = true → j = i)
    ∧ (g_op g = OpClose → past_nil (g_pc g) = true →
       ∃ h, heap (world c) !! g_handle g = Some h ∧ iface h = None).

(** ** Reading the methods, the count and the trace *)

Definition is_string_accessor (op : Op) : bool :=
  match op with
  | OpName | OpClass | OpPath | OpParent | OpSchema => true
  | _ => false
  end.

(** The platform method behind each string accessor, and the event of its
    call. *)
Definition accessor_method (op : Op) : ptr → P → (string * option Z) * P :=
  match op with
  | OpClass => IADs_Class
  | OpPath => IADs_AdsPath
  | OpParent => IADs_Parent
  | OpSchema => IADs_Schema
  | _ => IADs_Name
  end.

Definition accessor_event (op : Op) : ptr → Event :=
  match op with
  | OpClass => EvClass
  | OpPath => EvAdsPath
  | OpParent => EvParent
  | OpSchema => EvSchema
  | _ => EvName
  end.

(** A client step that is no cast. *)
Definition cast_free (c : Call) : bool :=
  match c with
  | CallNewObject _ => true
  | CallOp op _ => negb (is_cast op)
  end.

Definition is_Release (e : Event) : bool :=
  match e with
  | EvRelease _ => true
  | _ => false
  end.

(** The [Release] calls in a trace. *)
Fixpoint releases (tr : list Event) : nat :=
  match tr with
  | [] => O
  | e :: tr' => ((if is_Release e then 1 else 0) + releases tr')%nat
  end.

(** The [Release] calls on pointer [p] in a trace. *)
Fixpoint released (p : ptr) (tr : list Event) : nat :=
  match tr with
  | [] => O
  | EvRelease q :: tr' => ((if Pos.eqb q p then 1 else 0) + released p tr')%nat
  | _ :: tr' => released p tr'
  end.

(** The handles that are open. *)
Definition open_handles (hp : gmap loc object) : nat :=
  size (filter (λ kv, is_Some (iface kv.2)) hp).

(** The statements a call still has to run, at most. *)
Definition rank (at_pc : pc) : nat :=
  match at_pc with
  | Start => 6
  | Locked => 5
  | Proceeding => 4
  | Nulling => 3
  | Finishing => 2
  | Leaving _ => 1
  | Returned _ => 0
  end.

Definition total_rank (gs : list goroutine) : nat :=
  sum_list_with (λ g, rank (g_pc g)) gs.

(** No mutex is held. *)
Definition unlocked (c : Config) : Prop :=
  map_Forall (λ _ h, m h = false) (heap (world c)).

(** A held mutex has a goroutine inside its critical section. *)
Definition owned (c : Config) : Prop :=
  ∀ o h, heap (world c) !! o = Some h → m h = true →
    ∃ i g, pool c !! i = Some g ∧ g_handle g = o ∧ holds (g_pc g) = true.

(** No two handles around the same pointer. *)
Definition unshared (hp : gmap loc object) : Prop :=
  ∀ l1 l2 h1 h2 p,
    hp !! l1 = Some h1 → hp !! l2 = Some h2 →
    iface h1 = Some p → iface h2 = Some p → l1 = l2.

(** Pointer [p] was released at most once more than the [n0 p] times the
    trace began with; and once it was, a handle that still holds it is on
    its way to being nulled. *)
Definition release_once (n0 : ptr → nat) (c : Config) : Prop :=
  ∀ p, released p (trace (world c)) = n0 p
     ∨ (released p (trace (world c)) = S (n0 p)
        ∧ ∀ l h, heap (world c) !! l = Some h → iface h = Some p →
            ∃ i g, pool c !! i = Some g ∧ g_handle g = l
                   ∧ g_pc g = Nulling).

End Adsi.

Arguments Config : clear implicits.

(** ** A mocked platform

    One directory object behind every pointer.  Its name is
    ["example-object"]; pointer 2 answers [GUID] with text that is no GUID;
    only the container interface is supported; only the local host creates
    objects.  The platform's state counts the calls it served. *)
Module Mock.

Definition iid (n : Z) : ole_GUID := mkGUID n 0 0 [].

Definition E_NOINTERFACE : Z := 0x80004002.
Definition E_FAIL : Z := 0x80004005.

Definition nil_guid_text : string := "{00000000-0000-0000-0000-000000000000}".

#[global] Instance ids : InterfaceIDs := {|
  IID_IADsContainer := iid 1;
  IID_IADsComputer := iid 2;
  IID_IADsGroup := iid 3;
  IID_IADsOpenDSObject := iid 4
|}.

#[global] Instance platform : Platform nat := {|
  IADs_Name := λ _ n, (("example-object", None), S n);
  IADs_Class := λ _ n, (("user", None), S n);
  IADs_GUID := λ p n,
    ((if Pos.eqb p 2 then "garbage" else nil_guid_text, None), S n);
  IADs_AdsPath := λ _ n, (("LDAP://CN=example-object", None), S n);
  IADs_Parent := λ _ n, (("LDAP://", None), S n);
  IADs_Schema := λ _ n, (("", Some E_FAIL), S n);
  IADs_QueryInterface := λ p i n,
    (if Z.eqb (Data1 i) 1 then (Some (p + 100)%positive, None)
     else (None, Some E_NOINTERFACE), S n);
  IADs_Release := λ _ n, (0, S n);
  CreateRemoteObject := λ server _ _ n,
    (if String.eqb server "" then (Some 1%positive, None)
     else (None, Some E_FAIL), S n);
  NewGUID := λ s,
    if String.eqb s nil_guid_text then Some (mkGUID 0 0 0 (replicate 8 0))
    else None
|}.

(** Nothing allocated, nothing called. *)
Definition empty : World nat := mkWorld ∅ 0 0%nat [].

(** One open handle at address 1 around pointer [p]. *)
Definition one_open (p : ptr) : World nat :=
  mkWorld {[ 1%positive := mkobject false (Some p) ]} 1 0%nat [].

(** The world a computation ends in ([empty] if it does not return). *)
Definition after {A} (c : M nat A) (w : World nat) : World nat :=
  match c w with
  | Some (_, w') => w'
  | None => empty
  end.

(** The handle of [one_open 1], closed. *)
Definition closed_once : World nat :=
  after (Close 1%positive) (one_open 1%positive).

(** A client that carries on after the handle was closed. *)
Definition busy : list Call :=
  [CallOp OpName 1%positive; CallNewObject (Some 7%positive);
   CallOp OpClose 1%positive; CallOp OpToContainer 2%positive].

Definition later : World nat := after (calls busy) closed_once.

(** Two goroutines on the handle of [one_open 1]: one closes it, the
    other asks for its name. *)
Definition racing : Config nat :=
  mkConfig (one_open 1%positive)
           [mkgoroutine OpClose 1%positive Start;
            mkgoroutine OpName 1%positive Start].

(** [Close] runs to its end, then [Name] takes the lock. *)
Definition close_first : list nat := [0; 0; 0; 0; 0; 0; 1]%nat.

Definition raced : Config nat :=
  match schedule close_first racing with
  | Some c => c
  | None => racing
  end.

(** A client that never casts: it makes handles, asks and closes. *)
Definition plain : list Call :=
  [CallNewObject (Some 3%positive); CallOp OpName 1%positive;
   CallOp OpClose 1%positive; CallNewObject None;
   CallOp OpClose 1%positive; CallOp OpGUID 2%positive].

Definition after_plain : World nat := after (calls plain) (one_open 1%positive).

(** Two goroutines close the handle of [one_open 1] while a third asks for
    its name. *)
Definition closers : Config nat :=
  mkConfig (one_open 1%positive)
           [mkgoroutine OpClose 1%positive Start;
            mkgoroutine OpClose 1%positive Start;
            mkgoroutine OpName 1%positive Start].

(** [Name] goes first, the first [Close] next, the second one last. *)
Definition name_then_close : list nat :=
  [2; 2; 2; 2; 0; 0; 0; 0; 0; 0; 1; 1; 1]%nat.

Definition all_closed : Config nat :=
  match schedule name_then_close closers with
  | Some c => c
  | None => closers
  end.

End Mock.

(** * Properties *)

Section AdsiFacts.
Context {P : Type} `{!Platform P} `{!InterfaceIDs}.

Local Abbreviation W := (World P).
Local Abbreviation Go := (M P).

(** Unfold a method down to the heap and the platform. *)
Ltac go_unfold :=
  unfold Close, Close_func1, string_accessor, GUID, GUID_func1, cast,
    NewObject, alloc, comshim_Done, comshim_Add, Lock, closed, Unlock,
    clear_iface, the_iface, run, platform, after_platform, load, store,
    stuck, mbind, Go_bind, mret, Go_ret.

(** Run it: read back what was just stored. *)
Ltac go_run := repeat (simpl; rewrite ?lookup_insert_eq, ?insert_insert_eq).

Lemma insert_back (hp : gmap loc object) o h h' :
  hp !! o = Some h → <[o := h]> (<[o := h']> hp) = hp.
Proof. intros Ho. rewrite insert_insert_eq. by apply insert_id. Qed.

Lemma fresh_loc_fresh (hp : gmap loc object) : hp !! fresh (dom hp) = None.
Proof. apply not_elem_of_dom, is_fresh. Qed.

Lemma fresh_loc_ne (hp : gmap loc object) o :
  is_Some (hp !! o) → fresh (dom hp) ≠ o.
Proof.
  intros [h Ho] Heq. pose proof (fresh_loc_fresh hp) as Hf.
  rewrite Heq in Hf. congruence.
Qed.

(** *** The methods, by the state of the handle *)

Lemma Name_body : Name = string_accessor EvName IADs_Name.
Proof. reflexivity. Qed.
Lemma Class_body : Class = string_accessor EvClass IADs_Class.
Proof. reflexivity. Qed.
Lemma Path_body : Path = string_accessor EvAdsPath IADs_AdsPath.
Proof. reflexivity. Qed.
Lemma Parent_body : Parent = string_accessor EvParent IADs_Parent.
Proof. reflexivity. Qed.
Lemma Schema_body : Schema = string_accessor EvSchema IADs_Schema.
Proof. reflexivity. Qed.
Lemma ToContainer_body : ToContainer = cast IID_IADsContainer.
Proof. reflexivity. Qed.
Lemma ToComputer_body : ToComputer = cast IID_IADsComputer.
Proof. reflexivity. Qed.
Lemma ToGroup_body : ToGroup = cast IID_IADsGroup.
Proof. reflexivity. Qed.

Ltac bodies :=
  rewrite ?Name_body, ?Class_body, ?Path_body, ?Parent_body, ?Schema_body,
    ?ToContainer_body, ?ToComputer_body, ?ToGroup_body.

Lemma NewObject_eq (w : W) i :
  NewObject i w =
    Some (fresh (dom (heap w)),
          mkWorld (<[fresh (dom (heap w)) := mkobject false i]> (heap w))
                  (comshim w + 1) (plat w) (trace w)).
Proof. reflexivity. Qed.

Lemma Close_closed_handle (w : W) o :
  heap w !! o = Some (mkobject false None) →
  Close o w = Some ((), w).
Proof.
  intros Ho. go_unfold. rewrite Ho. go_run.
  rewrite insert_id by done. by destruct w.
Qed.

Lemma Close_open_handle (w : W) o p :
  heap w !! o = Some (mkobject false (Some p)) →
  Close o w =
    Some ((), mkWorld (<[o := mkobject false None]> (heap w))
                      (comshim w - 1)
                      (IADs_Release p (plat w)).2
                      (trace w ++ [EvRelease p])).
Proof.
  intros Ho. go_unfold. rewrite Ho. go_run.
  destruct (IADs_Release p (plat w)) as [n p'] eqn:Hrel.
  go_run. reflexivity.
Qed.

Lemma string_accessor_closed ev f (w : W) o :
  heap w !! o = Some (mkobject false None) →
  string_accessor ev f o w = Some (("", Some ErrClosed), w).
Proof.
  intros Ho. go_unfold. rewrite Ho. go_run.
  rewrite insert_id by done. by destruct w.
Qed.

Lemma string_accessor_open ev f (w : W) o p :
  heap w !! o = Some (mkobject false (Some p)) →
  string_accessor ev f o w =
    Some (((f p (plat w)).1.1, oleerr (f p (plat w)).1.2),
          after_platform (ev p) (f p) w).
Proof.
  intros Ho. go_unfold. rewrite Ho. go_run.
  destruct (f p (plat w)) as [[s e] p'] eqn:Hf. simpl.
  destruct e as [hr|]; go_run; by rewrite insert_id.
Qed.

Lemma GUID_closed (w : W) o :
  heap w !! o = Some (mkobject false None) →
  GUID o w = Some ((None, Some ErrClosed), w).
Proof.
  intros Ho. go_unfold. rewrite Ho. go_run.
  rewrite insert_id by done. by destruct w.
Qed.

Lemma GUID_open (w : W) o p :
  heap w !! o = Some (mkobject false (Some p)) →
  GUID o w =
    Some (guid_answer (IADs_GUID p (plat w)).1,
          after_platform (EvGUID p) (IADs_GUID p) w).
Proof.
  intros Ho. unfold guid_answer. go_unfold. rewrite Ho. go_run.
  destruct (IADs_GUID p (plat w)) as [[s e] p'] eqn:Hf. simpl.
  destruct e as [hr|]; simpl.
  - go_run. by rewrite insert_id.
  - destruct (NewGUID s); go_run; by rewrite insert_id.
Qed.

Lemma cast_closed iid (w : W) o :
  heap w !! o = Some (mkobject false None) →
  cast iid o w = Some ((None, Some ErrClosed), w).
Proof.
  intros Ho. go_unfold. rewrite Ho. go_run.
  rewrite insert_id by done. by destruct w.
Qed.

Lemma cast_open_fail iid (w : W) o p q hr p' :
  heap w !! o = Some (mkobject false (Some p)) →
  IADs_QueryInterface p iid (plat w) = (q, Some hr, p') →
  cast iid o w =
    Some ((None, Some (PlatformError hr)),
          mkWorld (heap w) (comshim w) p'
                  (trace w ++ [EvQueryInterface p iid])).
Proof.
  intros Ho Hq. go_unfold. rewrite Ho. go_run. rewrite Hq. go_run.
  by rewrite insert_id.
Qed.

Lemma cast_open_ok iid (w : W) o p q p' :
  heap w !! o = Some (mkobject false (Some p)) →
  IADs_QueryInterface p iid (plat w) = (q, None, p') →
  cast iid o w =
    Some ((Some (fresh (dom (heap w))), None),
          mkWorld (<[fresh (dom (heap w)) := mkobject false q]> (heap w))
                  (comshim w + 1) p'
                  (trace w ++ [EvQueryInterface p iid])).
Proof.
  intros Ho Hq.
  assert (Hdom : dom (<[o := mkobject true (Some p)]> (heap w)) = dom (heap w)).
  { apply dom_insert_lookup_L. by rewrite Ho. }
  assert (Hne : o ≠ fresh (dom (heap w))).
  { intros Heq. symmetry in Heq. revert Heq. apply fresh_loc_ne.
    by rewrite Ho. }
  go_unfold. rewrite Ho. go_run. rewrite Hq. go_run.
  rewrite Hdom. rewrite lookup_insert_ne by done.
  rewrite lookup_insert_eq. simpl.
  do 3 f_equal.
  rewrite (insert_insert_ne _ o (fresh (dom (heap w)))) by done.
  by rewrite insert_back.
Qed.

(** *** Every operation *)

Lemma perform_closed op (w : W) o :
  heap w !! o = Some (mkobject false None) →
  perform op o w = Some (closed_result op, w).
Proof.
  intros Ho. destruct op; unfold perform, mbind, Go_bind; bodies;
    first [ by rewrite Close_closed_handle
          | by rewrite string_accessor_closed
          | by rewrite GUID_closed
          | by rewrite cast_closed ].
Qed.

(** An operation that returns found its handle allocated and unlocked. *)
Lemma perform_returns op (w w' : W) o r :
  perform op o w = Some (r, w') →
  ∃ i, heap w !! o = Some (mkobject false i).
Proof.
  intros Hp. destruct (heap w !! o) as [[[|] i]|] eqn:Ho; [|by eauto|];
    exfalso; destruct op;
    unfold perform, Close, Name, Class, GUID, Path, Parent, Schema,
      ToContainer, ToComputer, ToGroup, Lock, load, stuck, mbind, Go_bind
      in Hp;
    rewrite Ho in Hp; simpl in Hp; discriminate.
Qed.

Lemma perform_cast_ok op (w : W) o p q p' :
  is_cast op = true →
  heap w !! o = Some (mkobject false (Some p)) →
  IADs_QueryInterface p (cast_iid op) (plat w) = (q, None, p') →
  perform op o w =
    Some (RHandle (Some (fresh (dom (heap w)))) None,
          mkWorld (<[fresh (dom (heap w)) := mkobject false q]> (heap w))
                  (comshim w + 1) p'
                  (trace w ++ [EvQueryInterface p (cast_iid op)])).
Proof.
  intros Hc Ho Hq. destruct op; try discriminate; simpl cast_iid in *;
    unfold perform, mbind, Go_bind; bodies;
    by rewrite (cast_open_ok _ _ _ _ _ _ Ho Hq).
Qed.

Lemma perform_cast_fail op (w : W) o p q hr p' :
  is_cast op = true →
  heap w !! o = Some (mkobject false (Some p)) →
  IADs_QueryInterface p (cast_iid op) (plat w) = (q, Some hr, p') →
  perform op o w =
    Some (RHandle None (Some (PlatformError hr)),
          mkWorld (heap w) (comshim w) p'
                  (trace w ++ [EvQueryInterface p (cast_iid op)])).
Proof.
  intros Hc Ho Hq. destruct op; try discriminate; simpl cast_iid in *;
    unfold perform, mbind, Go_bind; bodies;
    by rewrite (cast_open_fail _ _ _ _ _ _ _ Ho Hq).
Qed.

(** What an operation can do to the heap: nothing, close its own handle,
    or allocate one new handle. *)
Lemma perform_heap op (w w' : W) o r :
  perform op o w = Some (r, w') →
  heap w' = heap w
  ∨ (op = OpClose ∧ heap w' = <[o := mkobject false None]> (heap w))
  ∨ (∃ q, heap w' = <[fresh (dom (heap w)) := mkobject false q]> (heap w)).
Proof.
  intros Hp. destruct (perform_returns _ _ _ _ _ Hp) as [[p|] Ho].
  - destruct (is_cast op) eqn:Hc.
    + destruct (IADs_QueryInterface p (cast_iid op) (plat w))
        as [[q [hr|]] p'] eqn:Hq.
      * rewrite (perform_cast_fail _ _ _ _ _ _ _ Hc Ho Hq) in Hp.
        injection Hp as <- <-. by left.
      * rewrite (perform_cast_ok _ _ _ _ _ _ Hc Ho Hq) in Hp.
        injection Hp as <- <-. right; right. eauto.
    + destruct op; try discriminate; revert Hp;
        unfold perform, mbind, Go_bind; bodies;
        rewrite ?(Close_open_handle _ _ _ Ho),
          ?(string_accessor_open _ _ _ _ _ Ho), ?(GUID_open _ _ _ Ho);
        try destruct (guid_answer _); intros [= <- <-]; simpl; auto.
  - rewrite (perform_closed _ _ _ Ho) in Hp. injection Hp as <- <-. by left.
Qed.

(** [Close] leaves its handle closed and unlocked. *)
Lemma Close_closes (w w' : W) o :
  Close o w = Some ((), w') →
  heap w' !! o = Some (mkobject false None).
Proof.
  intros Hc.
  assert (Hp : perform OpClose o w = Some (RNothing, w')).
  { unfold perform, mbind, Go_bind. by rewrite Hc. }
  destruct (perform_returns _ _ _ _ _ Hp) as [[p|] Ho].
  - rewrite (Close_open_handle _ _ _ Ho) in Hc. injection Hc as <-.
    simpl. apply lookup_insert_eq.
  - rewrite (Close_closed_handle _ _ Ho) in Hc. by injection Hc as <-.
Qed.

Lemma perform_Close (w w' : W) o r :
  perform OpClose o w = Some (r, w') → Close o w = Some ((), w').
Proof.
  unfold perform, mbind, Go_bind.
  destruct (Close o w) as [[[] w1]|]; [|done]. by intros [= _ <-].
Qed.

(** A call leaves every other handle alone, and the handle it is made on
    either as it was or closed by [Close]. *)
Lemma call_handle c (w w' : W) l h :
  heap w !! l = Some h →
  call c w = Some ((), w') →
  heap w' !! l = Some h
  ∨ (c = CallOp OpClose l ∧ heap w' !! l = Some (mkobject false None)).
Proof.
  intros Hl Hc. destruct c as [i|op o]; unfold call in Hc.
  - unfold mbind, Go_bind in Hc. rewrite NewObject_eq in Hc.
    injection Hc as <-. simpl. left.
    rewrite lookup_insert_ne; [done|]. apply fresh_loc_ne. by rewrite Hl.
  - unfold mbind, Go_bind in Hc.
    destruct (perform op o w) as [[r w1]|] eqn:Hp; [|done].
    injection Hc as <-.
    destruct (perform_heap _ _ _ _ _ Hp) as [->|[[-> ->]|[q ->]]].
    + by left.
    + destruct (decide (o = l)) as [->|Hne].
      * right. split; [done|]. apply lookup_insert_eq.
      * left. by rewrite lookup_insert_ne.
    + left. rewrite lookup_insert_ne; [done|].
      apply fresh_loc_ne. by rewrite Hl.
Qed.

Lemma calls_cons c cs (w w2 : W) :
  calls (c :: cs) w = Some ((), w2) →
  ∃ w1, call c w = Some ((), w1) ∧ calls cs w1 = Some ((), w2).
Proof.
  simpl. unfold mbind, Go_bind.
  destruct (call c w) as [[[] w1]|]; [|done]. eauto.
Qed.

(** Once closed, closed for good. *)
Lemma calls_closed_stable cs (w w' : W) l :
  heap w !! l = Some (mkobject false None) →
  calls cs w = Some ((), w') →
  heap w' !! l = Some (mkobject false None).
Proof.
  revert w. induction cs as [|c cs IH]; intros w Hl Hcs.
  - by injection Hcs as <-.
  - apply calls_cons in Hcs as (w1 & Hc & Hcs).
    apply (IH w1); [|done].
    by destruct (call_handle _ _ _ _ _ Hl Hc) as [?|[_ ?]].
Qed.

Lemma calls_handle cs (w w' : W) l h :
  heap w !! l = Some h →
  calls cs w = Some ((), w') →
  heap w' !! l = Some h
  ∨ (CallOp OpClose l ∈ cs ∧ heap w' !! l = Some (mkobject false None)).
Proof.
  revert w. induction cs as [|c cs IH]; intros w Hl Hcs.
  - injection Hcs as <-. by left.
  - apply calls_cons in Hcs as (w1 & Hc & Hcs).
    destruct (call_handle _ _ _ _ _ Hl Hc) as [Hl1|[-> Hl1]].
    + destruct (IH _ Hl1 Hcs) as [?|[? ?]]; [by left|].
      right. split; [by apply list_elem_of_further|done].
    + right. split; [by apply list_elem_of_here|].
      by apply (calls_closed_stable cs w1).
Qed.

Lemma calls_Close_closes cs (w w' : W) l :
  CallOp OpClose l ∈ cs →
  calls cs w = Some ((), w') →
  heap w' !! l = Some (mkobject false None).
Proof.
  revert w. induction cs as [|c cs IH]; intros w Hin Hcs.
  - by apply not_elem_of_nil in Hin.
  - apply calls_cons in Hcs as (w1 & Hc & Hcs).
    apply elem_of_cons in Hin as [<-|Hin]; [|by apply (IH w1)].
    apply (calls_closed_stable cs w1); [|done].
    unfold call, mbind, Go_bind in Hc.
    destruct (perform OpClose l w) as [[r w1']|] eqn:Hp; [|done].
    injection Hc as <-. by apply (Close_closes w), (perform_Close _ _ _ r).
Qed.

Lemma Close_times_closed n (w : W) o :
  heap w !! o = Some (mkobject false None) →
  Close_times n o w = Some ((), w).
Proof.
  intros Ho. induction n as [|n IH]; [done|].
  simpl. unfold mbind, Go_bind. by rewrite Close_closed_handle.
Qed.

(** ** The properties of the design *)

(** C1.  Once [Close] has returned on a handle, and whatever the client
    does next, each of [Name], [Class], [GUID], [Path], [Parent],
    [Schema], [ToContainer], [ToComputer] and [ToGroup] called on that
    handle returns the zero value of its result with [ErrClosed], and
    leaves the world as it found it: the platform's state and the trace of
    platform calls are untouched, so no platform call was issued. *)
Theorem closed_handle_answers_ErrClosed (w w1 w2 : W) o cs op :
  Close o w = Some ((), w1) →
  calls cs w1 = Some ((), w2) →
  op ≠ OpClose →
  perform op o w2 = Some (closed_result op, w2).
Proof.
  intros Hc Hcs _. apply perform_closed.
  apply (calls_closed_stable cs w1); [|done]. by apply (Close_closes w).
Qed.

(** C2.  [Close] is idempotent: after a first [Close] has returned, any
    number of further [Close] calls on the handle return (no panic) and
    leave the whole world unchanged: the handle, the platform's state, the
    trace (no second [Release]) and the process-wide count. *)
Theorem Close_idempotent (w w1 : W) o n :
  Close o w = Some ((), w1) →
  Close_times n o w1 = Some ((), w1).
Proof. intros Hc. by apply Close_times_closed, (Close_closes w). Qed.

(** C3.  The handle's state machine.  Along any run of calls, a handle
    stays allocated; [closed()] answers true exactly when its interface
    pointer is nil, which is what the state CLOSED means; a CLOSED handle
    stays CLOSED (no way back to OPEN); a run that contains a [Close] of
    the handle ends with it CLOSED; and an OPEN handle found CLOSED at the
    end was closed by a [Close] of it in between. *)
Theorem handle_state_machine (w w' : W) cs l h :
  heap w !! l = Some h →
  calls cs w = Some ((), w') →
  ∃ h', heap w' !! l = Some h'
    ∧ (iface h' = None ↔ state_of h' = CLOSED)
    ∧ (∃ b, closed l w' = Some (b, w') ∧ (b = true ↔ state_of h' = CLOSED))
    ∧ (state_of h' = OPEN ∨ state_of h' = CLOSED)
    ∧ (state_of h = CLOSED → state_of h' = CLOSED)
    ∧ (CallOp OpClose l ∈ cs → state_of h' = CLOSED)
    ∧ (state_of h = OPEN → state_of h' = CLOSED → CallOp OpClose l ∈ cs).
Proof.
  intros Hl Hcs.
  assert (Hst : ∀ x : object, iface x = None ↔ state_of x = CLOSED).
  { intros [mx [p|]]; unfold state_of; simpl; split; congruence. }
  destruct (calls_handle _ _ _ _ _ Hl Hcs) as [Hl'|[Hin Hl']].
  - exists h. split; [done|]. split; [apply Hst|]. split.
    { exists (bool_decide (iface h = None)). split.
      - unfold closed, load, mbind, Go_bind. by rewrite Hl'.
      - rewrite bool_decide_eq_true. apply Hst. }
    split; [unfold state_of; destruct (iface h); auto|].
    split; [done|]. split; [|congruence].
    intros Hin. pose proof (calls_Close_closes _ _ _ _ Hin Hcs) as Hc.
    rewrite Hl' in Hc. by injection Hc as ->.
  - exists (mkobject false None). split; [done|]. split; [apply Hst|]. split.
    { exists true. split; [|done].
      unfold closed, load, mbind, Go_bind. by rewrite Hl'. }
    split; [by right|]. done.
Qed.

(** C4.  On an open handle, when the platform's [GUID] call succeeds with
    a string that [ole.NewGUID] cannot parse, [GUID] returns a nil
    identifier (no garbage value) with [ErrInvalidGUID], after that one
    platform call; and [ErrInvalidGUID] is no platform error. *)
Theorem GUID_unparsable (w : W) o p s p' :
  heap w !! o = Some (mkobject false (Some p)) →
  IADs_GUID p (plat w) = (s, None, p') →
  NewGUID s = None →
  GUID o w =
    Some ((None, Some ErrInvalidGUID),
          mkWorld (heap w) (comshim w) p' (trace w ++ [EvGUID p]))
  ∧ ∀ hr, ErrInvalidGUID ≠ PlatformError hr.
Proof.
  intros Ho Hg Hs. split; [|done].
  rewrite (GUID_open _ _ _ Ho). unfold guid_answer, after_platform.
  rewrite Hg. simpl. by rewrite Hs.
Qed.

(** C5.  On an open handle, a cast whose interface query succeeds returns
    a handle at a new address, unlocked, around the pointer the platform
    handed back; the source handle is as it was.  The two are independent:
    closing the source leaves the derived handle as it is, and closing the
    derived handle leaves the source as it is. *)
Theorem cast_independent (w : W) op o p q p' :
  is_cast op = true →
  heap w !! o = Some (mkobject false (Some p)) →
  IADs_QueryInterface p (cast_iid op) (plat w) = (q, None, p') →
  ∃ d w1,
    perform op o w = Some (RHandle (Some d) None, w1)
    ∧ heap w !! d = None
    ∧ heap w1 !! d = Some (mkobject false q)
    ∧ heap w1 !! o = heap w !! o
    ∧ (∃ w2, Close o w1 = Some ((), w2)
             ∧ heap w2 !! o = Some (mkobject false None)
             ∧ heap w2 !! d = heap w1 !! d)
    ∧ (∃ w2, Close d w1 = Some ((), w2)
             ∧ heap w2 !! d = Some (mkobject false None)
             ∧ heap w2 !! o = heap w1 !! o).
Proof.
  intros Hc Ho Hq.
  pose proof (fresh_loc_fresh (heap w)) as Hfresh.
  assert (Hne : fresh (dom (heap w)) ≠ o).
  { apply fresh_loc_ne. by rewrite Ho. }
  eexists _, _. split; [by apply (perform_cast_ok _ _ _ _ _ _ Hc Ho Hq)|].
  simpl. split; [done|]. split; [apply lookup_insert_eq|].
  split; [by rewrite lookup_insert_ne|]. split.
  - eexists. split.
    + apply (Close_open_handle _ o p). simpl.
      by rewrite lookup_insert_ne.
    + simpl. split; [apply lookup_insert_eq|].
      by rewrite lookup_insert_ne.
  - destruct q as [q|].
    + eexists. split.
      * apply (Close_open_handle _ _ q). simpl. apply lookup_insert_eq.
      * simpl. split; [apply lookup_insert_eq|].
        by rewrite lookup_insert_ne.
    + eexists. split.
      * apply Close_closed_handle. simpl. apply lookup_insert_eq.
      * simpl. split; [apply lookup_insert_eq|done].
Qed.

(** C6.  On an open handle, a cast whose interface query fails returns the
    platform's error code as it came, and no handle: the heap and the
    process-wide count are as before. *)
Theorem cast_failure_surfaced (w : W) op o p q hr p' :
  is_cast op = true →
  heap w !! o = Some (mkobject false (Some p)) →
  IADs_QueryInterface p (cast_iid op) (plat w) = (q, Some hr, p') →
  ∃ w1,
    perform op o w = Some (RHandle None (Some (PlatformError hr)), w1)
    ∧ heap w1 = heap w
    ∧ comshim w1 = comshim w
    ∧ trace w1 = trace w ++ [EvQueryInterface p (cast_iid op)].
Proof.
  intros Hc Ho Hq. eexists.
  split; [by apply (perform_cast_fail _ _ _ _ _ _ _ Hc Ho Hq)|done].
Qed.

(** C7.  On an open handle, whatever [Release] answers, [Close] returns
    (nothing: its result type is [unit]) with the handle closed: the
    pointer is nil, [closed()] says so, and neither the heap nor the count
    depends on the answer. *)
Theorem Close_always_closes (w : W) o p n p' :
  heap w !! o = Some (mkobject false (Some p)) →
  IADs_Release p (plat w) = (n, p') →
  ∃ w1,
    Close o w = Some ((), w1)
    ∧ heap w1 = <[o := mkobject false None]> (heap w)
    ∧ comshim w1 = comshim w - 1
    ∧ closed o w1 = Some (true, w1).
Proof.
  intros Ho Hr. eexists. split; [by apply (Close_open_handle _ _ p)|].
  simpl. split; [done|]. split; [done|].
  unfold closed, load, mbind, Go_bind. simpl. by rewrite lookup_insert_eq.
Qed.


(** C9.  [NewIADsOpenDSObject] is a pass-through.  It always returns; it
    calls [comutil.CreateRemoteObject] once, with its own arguments and the
    interface identifier of [IADsOpenDSObject]; it hands back the pointer
    and the error of that call as they came; it touches nothing else.
    Asked twice, it calls the platform twice: nothing is cached. *)
Theorem NewIADsOpenDSObject_passthrough (w : W) server clsid :
  let ev := EvCreateRemoteObject server clsid IID_IADsOpenDSObject in
  let a := CreateRemoteObject server clsid IID_IADsOpenDSObject (plat w) in
  NewIADsOpenDSObject server clsid w =
    Some ((a.1.1, oleerr a.1.2),
          mkWorld (heap w) (comshim w) a.2 (trace w ++ [ev]))
  ∧ ∃ r w2,
      (NewIADsOpenDSObject server clsid;;
       NewIADsOpenDSObject server clsid) w = Some (r, w2)
      ∧ trace w2 = trace w ++ [ev; ev].
Proof.
  intros ev a.
  assert (Hone : ∀ v : W, NewIADsOpenDSObject server clsid v =
    Some (((CreateRemoteObject server clsid IID_IADsOpenDSObject (plat v)).1.1,
           oleerr
             (CreateRemoteObject server clsid IID_IADsOpenDSObject (plat v)).1.2),
          mkWorld (heap v) (comshim v)
            (CreateRemoteObject server clsid IID_IADsOpenDSObject (plat v)).2
            (trace v ++ [ev]))).
  { intros v. unfold NewIADsOpenDSObject, platform, mbind, Go_bind, mret,
      Go_ret.
    by destruct (CreateRemoteObject server clsid IID_IADsOpenDSObject (plat v))
      as [[x e] p']. }
  split; [apply Hone|].
  unfold mbind at 1, Go_bind at 1. rewrite Hone, Hone. simpl.
  eexists _, _. split; [done|]. by rewrite <- app_assoc.
Qed.

(** *** Goroutines *)

Ltac step_unfold :=
  unfold goroutine_step, proceed, Close_func1, Name_func1, Class_func1,
    GUID_func1, Path_func1, Parent_func1, Schema_func1, ToContainer_func1,
    ToComputer_func1, ToGroup_func1, NewContainer, NewComputer, NewGroup,
    alloc, comshim_Done, comshim_Add, Lock, closed, Unlock, clear_iface,
    the_iface, run, platform, load, store, stuck, mbind, Go_bind, mret,
    Go_ret.

Ltac split_platform H :=
  repeat match type of H with
         | context [let '(_, _) := ?x in _] =>
             let E := fresh "Hcall" in
             first [ destruct x as [[? ?] ?] eqn:E
                   | destruct x as [? ?] eqn:E ];
             simpl in H
         | context [match oleerr ?e with _ => _ end] =>
             destruct e; simpl in H
         | context [match NewGUID ?s with _ => _ end] =>
             destruct (NewGUID s); simpl in H
         end.

(** One statement, by the program point it starts from. *)
Lemma goroutine_step_cases op o at_pc (w : W) at_pc' w' :
  goroutine_step op o at_pc w = Some (at_pc', w') →
  (at_pc = Start ∧ at_pc' = Locked
   ∧ ∃ i, heap w !! o = Some (mkobject false i)
          ∧ heap w' = <[o := mkobject true i]> (heap w))
  ∨ (at_pc = Locked ∧ heap w' = heap w
     ∧ ∃ h, heap w !! o = Some h
            ∧ ((at_pc' = Proceeding ∧ is_Some (iface h))
               ∨ (at_pc' = Leaving (closed_result op) ∧ iface h = None)))
  ∨ (at_pc = Proceeding
     ∧ is_Some (heap w !! o)
     ∧ (heap w' = heap w
        ∨ ∃ q, heap w' = <[fresh (dom (heap w)) := mkobject false q]> (heap w))
     ∧ ((op = OpClose ∧ at_pc' = Nulling)
        ∨ (op ≠ OpClose ∧ ∃ r, at_pc' = Leaving r)))
  ∨ (at_pc = Nulling ∧ at_pc' = Finishing
     ∧ ∃ h, heap w !! o = Some h
            ∧ heap w' = <[o := mkobject (m h) None]> (heap w))
  ∨ (at_pc = Finishing ∧ at_pc' = Leaving RNothing ∧ heap w' = heap w)
  ∨ (∃ r i, at_pc = Leaving r ∧ at_pc' = Returned r
            ∧ heap w !! o = Some (mkobject true i)
            ∧ heap w' = <[o := mkobject false i]> (heap w)).
Proof.
  intros Hs. destruct at_pc as [| | | | |r|r].
  - left. revert Hs. step_unfold.
    destruct (heap w !! o) as [[[|] i]|] eqn:Ho; simpl; try done.
    intros [= <- <-]. eauto.
  - right; left. revert Hs. step_unfold.
    destruct (heap w !! o) as [[mh [p|]]|] eqn:Ho; simpl; try done;
      intros [= <- <-]; (split; [done|]); (split; [done|]);
      eexists; (split; [done|]); simpl; eauto.
  - right; right; left. split; [done|].
    destruct (heap w !! o) as [[mh [p|]]|] eqn:Ho;
      [split; [by eauto|] | exfalso | exfalso];
      destruct op; revert Hs; step_unfold; rewrite Ho; simpl;
      intros Hs; split_platform Hs; try discriminate;
      injection Hs as <- <-; simpl;
      (split; [by eauto|]); first [by left | right; split; [done|by eauto]].
  - do 3 right; left. revert Hs. step_unfold.
    destruct (heap w !! o) as [h|] eqn:Ho; simpl; [|done].
    intros [= <- <-]. eauto.
  - do 4 right; left. revert Hs. step_unfold. by intros [= <- <-].
  - do 5 right. revert Hs. step_unfold.
    destruct (heap w !! o) as [[[|] i]|] eqn:Ho; simpl; try done.
    intros [= <- <-]. eauto 10.
  - discriminate.
Qed.

(** A statement never frees a handle, touches no handle but its own, and
    never brings a nil pointer back. *)
Lemma goroutine_step_frame op o at_pc (w : W) at_pc' w' :
  goroutine_step op o at_pc w = Some (at_pc', w') →
  ∀ l h, heap w !! l = Some h →
    ∃ h', heap w' !! l = Some h'
      ∧ (l ≠ o → h' = h)
      ∧ (iface h = None → iface h' = None).
Proof.
  intros Hs l h Hl.
  destruct (goroutine_step_cases _ _ _ _ _ _ Hs)
    as [(_ & _ & i & Ho & ->)
       |[(_ & -> & _)
        |[(_ & _ & [->|[q ->]] & _)
         |[(_ & _ & h0 & Ho & ->)
          |[(_ & _ & ->)
           |(r & i & _ & _ & Ho & ->)]]]]].
  - destruct (decide (l = o)) as [->|Hne].
    + rewrite lookup_insert_eq. eexists. split; [done|].
      rewrite Ho in Hl. injection Hl as <-. done.
    + rewrite lookup_insert_ne by done. eauto.
  - eauto.
  - eauto.
  - rewrite lookup_insert_ne; [eauto|]. apply fresh_loc_ne. by rewrite Hl.
  - destruct (decide (l = o)) as [->|Hne].
    + rewrite lookup_insert_eq. eexists. split; [done|]. done.
    + rewrite lookup_insert_ne by done. eauto.
  - eauto.
  - destruct (decide (l = o)) as [->|Hne].
    + rewrite lookup_insert_eq. eexists. split; [done|].
      rewrite Ho in Hl. injection Hl as <-. done.
    + rewrite lookup_insert_ne by done. eauto.
Qed.

(** Only the [run] statement reaches the platform. *)
Lemma goroutine_step_quiet op o at_pc (w : W) at_pc' w' :
  at_pc ≠ Proceeding →
  goroutine_step op o at_pc w = Some (at_pc', w') →
  trace w' = trace w ∧ plat w' = plat w.
Proof.
  intros Hne. destruct at_pc as [| | | | |r|r]; try done; step_unfold;
    destruct (heap w !! o) as [[[|] [p|]]|]; simpl; try done;
    by intros [= <- <-].
Qed.

Lemma initial_serialized (c : Config P) : initial c → serialized c.
Proof.
  intros Hstart i g Hi.
  rewrite (proj1 (Forall_lookup _ _) Hstart i g Hi). by split.
Qed.

(** A goroutine outside the critical section that moves takes the lock,
    so it found the mutex free. *)
Lemma step_from_outside op o at_pc (w : W) at_pc' w' :
  holds at_pc = false →
  goroutine_step op o at_pc w = Some (at_pc', w') →
  ∃ i, heap w !! o = Some (mkobject false i).
Proof.
  intros Hh Hs.
  destruct (goroutine_step_cases _ _ _ _ _ _ Hs)
    as [(_ & _ & i & Ho & _)
       |[(-> & _)|[(-> & _)|[(-> & _)|[(-> & _)|(r & i & -> & _)]]]]];
    try discriminate.
  eauto.
Qed.

Lemma step_at_serialized k (c c' : Config P) :
  serialized c → step_at k c = Some c' → serialized c'.
Proof.
  intros Inv Hstep. unfold step_at in Hstep.
  destruct (pool c !! k) as [gk|] eqn:Hk; [|done].
  destruct (goroutine_step (g_op gk) (g_handle gk) (g_pc gk) (world c))
    as [[at_pc' w']|] eqn:Hg; [|done].
  injection Hstep as <-.
  pose proof (goroutine_step_frame _ _ _ _ _ _ Hg) as Hframe.
  destruct (Inv k gk Hk) as [Hk_hold Hk_nil].
  (* nobody else is inside the critical section of the moving goroutine *)
  assert (Halone : ∀ j g', j ≠ k → pool c !! j = Some g' →
            g_handle g' = g_handle gk → holds (g_pc g') = true → False).
  { intros j g' Hjk Hj Hsame Hhj.
    destruct (holds (g_pc gk)) eqn:Hhk.
    - destruct (Hk_hold eq_refl) as (h & _ & _ & _ & Huniq).
      by apply Hjk, (Huniq j g').
    - destruct (step_from_outside _ _ _ _ _ _ Hhk Hg) as [i0 Ho].
      destruct (Inv j g' Hj) as [Hj_hold _].
      destruct (Hj_hold Hhj) as (h & Hl & Hm & _).
      rewrite Hsame, Ho in Hl. injection Hl as <-. done. }
  intros i g Hi. simpl in Hi.
  apply list_lookup_insert_Some in Hi as [(<- & <- & Hlen)|(Hne & Hi)];
    simpl.
  - (* the goroutine that moved *)
    assert (Huniq' : ∀ j g',
              <[k := mkgoroutine (g_op gk) (g_handle gk) at_pc']> (pool c)
                !! j = Some g' →
              g_handle g' = g_handle gk → holds (g_pc g') = true → j = k).
    { intros j g' Hj Hsame Hhj.
      apply list_lookup_insert_Some in Hj as [(<- & _)|(Hjk & Hj)];
        [done|].
      exfalso. apply (Halone j g'); auto. }
    destruct (goroutine_step_cases _ _ _ _ _ _ Hg)
      as [(Hpc & -> & i0 & Ho & Hw')
         |[(Hpc & Hw' & h & Ho & [[-> Hif]|[-> Hif]])
          |[(Hpc & [h Ho] & Hw' & [[Hop ->]|[Hop [r ->]]])
           |[(Hpc & -> & h & Ho & Hw')
            |[(Hpc & -> & Hw')
             |(r & i0 & Hpc & -> & Ho & Hw')]]]]];
      rewrite Hpc in Hk_hold, Hk_nil; simpl in *.
    + split; [|done]. intros _. rewrite Hw', lookup_insert_eq.
      eexists. split; [done|]. split; [done|]. split; done.
    + destruct (Hk_hold eq_refl) as (h0 & Ho0 & Hm & _).
      rewrite Ho in Ho0. injection Ho0 as <-.
      split; [|done]. intros _. rewrite Hw'. exists h. auto.
    + destruct (Hk_hold eq_refl) as (h0 & Ho0 & Hm & _).
      rewrite Ho in Ho0. injection Ho0 as <-.
      split.
      * intros _. rewrite Hw'. exists h. split; [done|]. split; [done|].
        split; [done|]. done.
      * intros _ _. rewrite Hw'. eauto.
    + destruct (Hk_hold eq_refl) as (h0 & Ho0 & Hm & _).
      rewrite Ho in Ho0. injection Ho0 as <-.
      destruct (Hframe _ _ Ho) as (h' & Ho' & _).
      split; [|done]. intros _.
      assert (Hh' : h' = h).
      { destruct Hw' as [Hw'|[q Hw']]; rewrite Hw' in Ho'.
        - rewrite Ho in Ho'. by injection Ho' as <-.
        - rewrite lookup_insert_ne in Ho'.
          + rewrite Ho in Ho'. by injection Ho' as <-.
          + apply fresh_loc_ne. by rewrite Ho. }
      subst h'. exists h. split; [done|]. split; [done|]. split; done.
    + destruct (Hk_hold eq_refl) as (h0 & Ho0 & Hm & _).
      rewrite Ho in Ho0. injection Ho0 as <-.
      destruct (Hframe _ _ Ho) as (h' & Ho' & _).
      split; [|by intros Hop'].
      intros _.
      assert (Hh' : h' = h).
      { destruct Hw' as [Hw'|[q Hw']]; rewrite Hw' in Ho'.
        - rewrite Ho in Ho'. by injection Ho' as <-.
        - rewrite lookup_insert_ne in Ho'.
          + rewrite Ho in Ho'. by injection Ho' as <-.
          + apply fresh_loc_ne. by rewrite Ho. }
      subst h'. exists h. split; [done|]. split; [done|]. split; done.
    + destruct (Hk_hold eq_refl) as (h0 & Ho0 & Hm & _).
      rewrite Ho in Ho0. injection Ho0 as <-.
      rewrite Hw', lookup_insert_eq. split.
      * intros _. eexists. split; [done|]. split; [done|]. split; done.
      * intros _ _. eauto.
    + destruct (Hk_hold eq_refl) as (h0 & Ho0 & Hm & _).
      rewrite Hw'. split.
      * intros _. exists h0. split; [done|]. split; [done|]. split; done.
      * intros Hop _. destruct (Hk_nil Hop eq_refl) as (h1 & Ho1 & Hnil).
        eauto.
    + split; [done|]. intros Hop _.
      destruct (Hk_nil Hop eq_refl) as (h1 & Ho1 & Hnil).
      rewrite Ho in Ho1. injection Ho1 as <-.
      rewrite Hw', lookup_insert_eq. eauto.
  - (* a goroutine that stood still *)
    destruct (Inv i g Hi) as [Hi_hold Hi_nil]. split.
    + intros Hh. destruct (Hi_hold Hh) as (h & Hl & Hm & Hpr & Huniq).
      assert (Hother : g_handle g ≠ g_handle gk).
      { intros Heq. apply (Halone i g); auto. }
      destruct (Hframe _ _ Hl) as (h' & Hl' & Hsame & _).
      rewrite (Hsame Hother) in Hl'. exists h.
      split; [done|]. split; [done|]. split; [done|].
      intros j g' Hj Hhandle Hhj.
      apply list_lookup_insert_Some in Hj as [(<- & <- & _)|(Hjk & Hj)].
      * simpl in Hhandle. congruence.
      * by apply (Huniq j g').
    + intros Hop Hpn. destruct (Hi_nil Hop Hpn) as (h & Hl & Hnil).
      destruct (Hframe _ _ Hl) as (h' & Hl' & _ & Hn). eauto.
Qed.

Lemma schedule_serialized s (c c' : Config P) :
  serialized c → schedule s c = Some c' → serialized c'.
Proof.
  revert c. induction s as [|k s IH]; intros c Inv Hs; simpl in Hs.
  - by injection Hs as <-.
  - destruct (step_at k c) as [c1|] eqn:Hk; [|done].
    apply (IH c1); [|done]. by apply (step_at_serialized k c).
Qed.

(** Inside the critical section nothing blocks and nothing panics: the
    goroutine that holds the lock can always run its next statement. *)
Lemma holder_moves i (c : Config P) g :
  serialized c →
  pool c !! i = Some g →
  holds (g_pc g) = true →
  is_Some (step_at i c).
Proof.
  intros Inv Hi Hh. destruct (Inv i g Hi) as [Hhold _].
  destruct (Hhold Hh) as (h & Hl & Hm & Hpr & _).
  unfold step_at. rewrite Hi.
  destruct g as [op o at_pc], h as [mh ih]; simpl in *. subst mh.
  assert (Hgo : is_Some (goroutine_step op o at_pc (world c))).
  { destruct at_pc as [| | | | |r|r]; try discriminate.
    - step_unfold. rewrite Hl. simpl. destruct (bool_decide _); eauto.
    - destruct (Hpr eq_refl) as [p ->].
      destruct op; step_unfold; rewrite Hl; simpl;
        repeat match goal with
               | |- context [let '(_, _) := ?x in _] =>
                   first [ destruct x as [[? [?|]] ?] eqn:?
                         | destruct x as [? ?] eqn:? ];
                   simpl
               | |- context [match NewGUID ?s with _ => _ end] =>
                   destruct (NewGUID s); simpl
               end;
        eauto.
    - step_unfold. rewrite Hl. simpl. eauto.
    - step_unfold. eauto.
    - step_unfold. rewrite Hl. simpl. eauto. }
  destruct Hgo as [[at_pc' w'] ->]. eauto.
Qed.

(** The statements of a call, run by one goroutine with nobody in
    between, are the call. *)
Lemma lookup_under_fresh (hp : gmap loc object) o x y :
  <[fresh (dom (<[o := x]> hp)) := y]> (<[o := x]> hp) !! o = Some x.
Proof.
  rewrite lookup_insert_ne.
  - apply lookup_insert_eq.
  - apply fresh_loc_ne. rewrite lookup_insert_eq. eauto.
Qed.

Lemma solo_perform op o (w : W) :
  solo 6 op o Start w = perform op o w.
Proof.
  destruct (heap w !! o) as [[[|] [p|]]|] eqn:Ho; destruct op;
    unfold perform, Close, Name, Class, GUID, Path, Parent, Schema,
      ToContainer, ToComputer, ToGroup;
    simpl; step_unfold;
    repeat (simpl; rewrite ?Ho, ?lookup_insert_eq, ?insert_insert_eq);
    try reflexivity;
    repeat match goal with
           | |- context [let '(_, _) := ?x in _] =>
               first [ destruct x as [[? [?|]] ?] eqn:?
                     | destruct x as [? ?] eqn:? ];
               repeat (simpl; rewrite ?lookup_under_fresh, ?lookup_insert_eq,
                         ?insert_insert_eq)
           | |- context [match NewGUID ?s with _ => _ end] =>
               destruct (NewGUID s);
               repeat (simpl; rewrite ?lookup_insert_eq, ?insert_insert_eq)
           end;
    try reflexivity.
Qed.

(** C10.  In every interleaving of calls on shared handles, once a
    [Close] of a handle has returned, no goroutine is past the [closed()]
    test of a call on that handle with the handle found open;
    whatever statement such a goroutine runs next issues no platform call;
    and one that holds the lock and is about to test finds the handle
    closed and leaves with the closed-handle answer. *)
Theorem Close_serializes_accessors (c0 c : Config P) s i j gi gj r :
  initial c0 →
  schedule s c0 = Some c →
  pool c !! i = Some gi → g_op gi = OpClose → g_pc gi = Returned r →
  pool c !! j = Some gj → g_handle gj = g_handle gi →
  g_pc gj ≠ Proceeding
  ∧ ∀ c', step_at j c = Some c' →
      trace (world c') = trace (world c)
      ∧ (g_pc gj = Locked →
         pool c' !! j =
           Some (mkgoroutine (g_op gj) (g_handle gj)
                             (Leaving (closed_result (g_op gj))))).
Proof.
  intros Hinit Hs Hi Hop Hpc Hj Hsame.
  pose proof (schedule_serialized _ _ _ (initial_serialized _ Hinit) Hs)
    as Inv.
  destruct (Inv i gi Hi) as [_ Hnil].
  destruct (Hnil Hop) as (h & Hl & Hnone); [by rewrite Hpc|].
  assert (Hnot : g_pc gj ≠ Proceeding).
  { intros Hpr. destruct (Inv j gj Hj) as [Hhold _].
    destruct Hhold as (h' & Hl' & _ & Hsome & _); [by rewrite Hpr|].
    rewrite Hsame, Hl in Hl'. injection Hl' as <-.
    destruct (Hsome Hpr) as [p Hp]. congruence. }
  split; [done|].
  intros c' Hstep. unfold step_at in Hstep. rewrite Hj in Hstep.
  destruct (goroutine_step (g_op gj) (g_handle gj) (g_pc gj) (world c))
    as [[at_pc' w']|] eqn:Hg; [|done].
  injection Hstep as <-. simpl. split.
  - by destruct (goroutine_step_quiet _ _ _ _ _ _ Hnot Hg).
  - intros Hlocked. rewrite list_lookup_insert_eq
      by (by apply lookup_lt_Some in Hj).
    destruct (goroutine_step_cases _ _ _ _ _ _ Hg)
      as [(Hx & _)|[(_ & _ & h' & Hl' & [[_ Hif]|[-> _]])
         |[(Hx & _)|[(Hx & _)|[(Hx & _)|(? & ? & Hx & _)]]]]];
      try congruence.
    rewrite Hsame, Hl in Hl'. injection Hl' as <-.
    destruct Hif as [p Hp]. congruence.
Qed.

(** ** More of what the methods do *)

(** What a method that is no cast does to the world: nothing but at most
    one platform call that is no [Release]; or, for [Close] on an open
    handle, one [Release] of its pointer, the pointer nulled and one taken
    off the count. *)
Lemma perform_effect op (w w' : W) o r :
  is_cast op = false →
  perform op o w = Some (r, w') →
  (heap w' = heap w ∧ comshim w' = comshim w
   ∧ (trace w' = trace w
      ∨ ∃ ev, is_Release ev = false ∧ trace w' = trace w ++ [ev]))
  ∨ (op = OpClose
     ∧ ∃ p, heap w !! o = Some (mkobject false (Some p))
            ∧ heap w' = <[o := mkobject false None]> (heap w)
            ∧ comshim w' = comshim w - 1
            ∧ trace w' = trace w ++ [EvRelease p]).
Proof.
  intros Hc Hp. destruct (perform_returns _ _ _ _ _ Hp) as [[p|] Ho].
  - destruct op; try discriminate; revert Hp;
      unfold perform, mbind, Go_bind; bodies;
      rewrite ?(Close_open_handle _ _ _ Ho),
        ?(string_accessor_open _ _ _ _ _ Ho), ?(GUID_open _ _ _ Ho);
      try destruct (guid_answer _); intros [= <- <-]; simpl;
      first [ right; split; [done|]; exists p; done
            | left; split; [done|]; split; [done|]; right;
              eexists; split; [|reflexivity]; done ].
  - rewrite (perform_closed _ _ _ Ho) in Hp. injection Hp as <- <-.
    left. auto.
Qed.

(** X1.  On an open handle each of [Name], [Class], [Path], [Parent] and
    [Schema] calls its platform method once, through the handle's pointer,
    and returns what that call returned: the string as it came, also next
    to an error, and the error code as it came.  The handle stays open and
    unlocked; heap and count are untouched. *)
Theorem accessor_passthrough (w : W) op o p :
  is_string_accessor op = true →
  heap w !! o = Some (mkobject false (Some p)) →
  perform op o w =
    Some (RString (accessor_method op p (plat w)).1.1
                  (oleerr (accessor_method op p (plat w)).1.2),
          mkWorld (heap w) (comshim w)
                  (accessor_method op p (plat w)).2
                  (trace w ++ [accessor_event op p])).
Proof.
  intros Hop Ho. destruct op; try discriminate;
    unfold perform, mbind, Go_bind; bodies;
    by rewrite (string_accessor_open _ _ _ _ _ Ho).
Qed.

(** X2.  [GUID] returns an identifier or an error, never both and never
    neither; and an identifier it returns is what [ole.NewGUID] made of
    the string of a platform call that succeeded on an open handle. *)
Theorem GUID_value_xor_error (w w' : W) o g e :
  GUID o w = Some ((g, e), w') →
  (is_Some g ↔ e = None)
  ∧ ∀ x, g = Some x →
      ∃ p s, heap w !! o = Some (mkobject false (Some p))
             ∧ (IADs_GUID p (plat w)).1 = (s, None)
             ∧ NewGUID s = Some x.
Proof.
  intros Hg.
  assert (Hp : perform OpGUID o w = Some (RGUID g e, w')).
  { unfold perform, mbind, Go_bind. by rewrite Hg. }
  destruct (perform_returns _ _ _ _ _ Hp) as [[p|] Ho].
  - rewrite (GUID_open _ _ _ Ho) in Hg. unfold guid_answer in Hg.
    destruct (IADs_GUID p (plat w)) as [[s [hr|]] p'] eqn:Hcall;
      simpl in Hg.
    + injection Hg as <- <- _. split.
      * split; [by intros [? ?]|done].
      * done.
    + destruct (NewGUID s) as [x0|] eqn:Hs; injection Hg as <- <- _.
      * split; [by eauto|]. intros x [= <-]. exists p, s.
        by rewrite Hcall.
      * split; [|done]. split; [by intros [? ?]|done].
  - rewrite (GUID_closed _ _ Ho) in Hg. injection Hg as <- <- _. split.
    + split; [by intros [? ?]|done].
    + done.
Qed.

(** X3.  A method that is no cast and returns has given back every lock:
    it found its own handle unlocked, no handle was allocated or freed, and
    every mutex is as it was. *)
Theorem locks_restored (w w' : W) op o r :
  is_cast op = false →
  perform op o w = Some (r, w') →
  (∃ i, heap w !! o = Some (mkobject false i))
  ∧ dom (heap w') = dom (heap w)
  ∧ ∀ l h, heap w !! l = Some h →
      ∃ h', heap w' !! l = Some h' ∧ m h' = m h.
Proof.
  intros Hc Hp. split; [by apply (perform_returns op w w' o r)|].
  destruct (perform_effect _ _ _ _ _ Hc Hp)
    as [(-> & _)|(_ & p & Ho & -> & _)].
  - split; [done|]. eauto.
  - split.
    + apply dom_insert_lookup_L. by rewrite Ho.
    + intros l h Hl. destruct (decide (l = o)) as [->|Hne].
      * rewrite lookup_insert_eq. eexists. split; [done|].
        rewrite Ho in Hl. by injection Hl as <-.
      * rewrite lookup_insert_ne by done. eauto.
Qed.

(** *** The count, the handles and the releases *)

Lemma releases_app tr1 tr2 :
  releases (tr1 ++ tr2) = (releases tr1 + releases tr2)%nat.
Proof. induction tr1 as [|e tr1 IH]; simpl; [done|]. rewrite IH. lia. Qed.

Lemma open_handles_alloc (hp : gmap loc object) l h :
  hp !! l = None →
  open_handles (<[l := h]> hp)
  = (open_handles hp + match iface h with Some _ => 1 | None => 0 end)%nat.
Proof.
  intros Hl. unfold open_handles. destruct (iface h) as [p|] eqn:Hi.
  - rewrite map_filter_insert_True by (simpl; rewrite Hi; eauto).
    rewrite map_size_insert_None; [lia|].
    apply map_lookup_filter_None. by left.
  - rewrite map_filter_insert_False
      by (simpl; rewrite Hi; by intros [? ?]).
    rewrite delete_id by done. lia.
Qed.

Lemma open_handles_close (hp : gmap loc object) o h b :
  hp !! o = Some h → is_Some (iface h) →
  S (open_handles (<[o := mkobject b None]> hp)) = open_handles hp.
Proof.
  intros Ho Hi. unfold open_handles.
  rewrite map_filter_insert_False by (simpl; by intros [? ?]).
  rewrite map_filter_delete, map_size_delete_Some.
  - assert (Hpos : size (filter (λ kv : loc * object, is_Some (iface kv.2)) hp)
                   ≠ 0%nat); [|lia].
    intros Hz. apply map_size_empty_inv in Hz.
    assert (Hin : filter (λ kv : loc * object, is_Some (iface kv.2)) hp !! o
                  = Some h) by (by apply map_lookup_filter_Some).
    rewrite Hz in Hin. by rewrite lookup_empty in Hin.
  - exists h. by apply map_lookup_filter_Some.
Qed.

(** One client step that is no cast: what it does to the count, to the
    number of handles, of open handles and of releases. *)
Lemma call_accounts c (w w' : W) :
  cast_free c = true →
  call c w = Some ((), w') →
  comshim w - Z.of_nat (open_handles (heap w))
    ≤ comshim w' - Z.of_nat (open_handles (heap w'))
  ∧ comshim w' - comshim w
    = (Z.of_nat (size (heap w')) - Z.of_nat (size (heap w)))
      - (Z.of_nat (releases (trace w')) - Z.of_nat (releases (trace w))).
Proof.
  intros Hfree Hc. destruct c as [i|op o]; unfold call in Hc.
  - unfold mbind, Go_bind in Hc. rewrite NewObject_eq in Hc.
    injection Hc as <-. simpl.
    rewrite open_handles_alloc by apply fresh_loc_fresh.
    rewrite map_size_insert_None by apply fresh_loc_fresh.
    simpl. destruct i; lia.
  - unfold mbind, Go_bind in Hc.
    destruct (perform op o w) as [[r w1]|] eqn:Hp; [|done].
    injection Hc as <-. simpl in Hfree. apply negb_true_iff in Hfree.
    destruct (perform_effect _ _ _ _ _ Hfree Hp)
      as [(-> & -> & [->|(ev & Hev & ->)])
         |(_ & p & Ho & -> & -> & ->)].
    + lia.
    + rewrite releases_app. simpl. rewrite Hev. lia.
    + rewrite releases_app. simpl.
      rewrite map_size_insert_Some by (by rewrite Ho).
      pose proof (open_handles_close (heap w) o _ false Ho) as Hop.
      simpl in Hop. specialize (Hop (ltac:(eauto))). lia.
Qed.

(** X4.  Along a run of constructions and of methods that are no casts,
    the process-wide count minus the number of open handles never goes
    down: a count that covers the open handles keeps covering them, so the
    runtime stays initialised for as long as a handle is open. *)
Theorem count_covers_open_handles cs (w w' : W) :
  Forall (λ c, cast_free c = true) cs →
  calls cs w = Some ((), w') →
  comshim w - Z.of_nat (open_handles (heap w))
    ≤ comshim w' - Z.of_nat (open_handles (heap w')).
Proof.
  revert w. induction cs as [|c cs IH]; intros w Hfree Hcs.
  - injection Hcs as <-. lia.
  - apply calls_cons in Hcs as (w1 & Hc & Hcs).
    apply Forall_cons in Hfree as [Hc_free Hfree].
    destruct (call_accounts _ _ _ Hc_free Hc) as [Hstep _].
    specialize (IH w1 Hfree Hcs). lia.
Qed.

(** X5.  Along such a run the count goes up by the number of handles
    constructed and down by the number of [Release] calls issued: every
    [comshim.Done] is paired with one [Release]. *)
Theorem count_is_constructions_minus_releases cs (w w' : W) :
  Forall (λ c, cast_free c = true) cs →
  calls cs w = Some ((), w') →
  comshim w' - comshim w
  = (Z.of_nat (size (heap w')) - Z.of_nat (size (heap w)))
    - (Z.of_nat (releases (trace w')) - Z.of_nat (releases (trace w))).
Proof.
  revert w. induction cs as [|c cs IH]; intros w Hfree Hcs.
  - injection Hcs as <-. lia.
  - apply calls_cons in Hcs as (w1 & Hc & Hcs).
    apply Forall_cons in Hfree as [Hc_free Hfree].
    destruct (call_accounts _ _ _ Hc_free Hc) as [_ Hstep].
    specialize (IH w1 Hfree Hcs). lia.
Qed.

(** ** More of what the lock does *)

(** X6.  Mutual exclusion: in every interleaving, two goroutines are never
    both between [Lock] and [Unlock] of the same handle, and the one that
    is there finds the mutex held. *)
Theorem mutual_exclusion (c0 c : Config P) s i j gi gj :
  initial c0 →
  schedule s c0 = Some c →
  pool c !! i = Some gi → pool c !! j = Some gj →
  g_handle gi = g_handle gj →
  holds (g_pc gi) = true → holds (g_pc gj) = true →
  i = j
  ∧ ∃ h, heap (world c) !! g_handle gi = Some h ∧ m h = true.
Proof.
  intros Hinit Hs Hi Hj Hsame Hhi Hhj.
  pose proof (schedule_serialized _ _ _ (initial_serialized _ Hinit) Hs)
    as Inv.
  destruct (Inv i gi Hi) as [Hhold _].
  destruct (Hhold Hhi) as (h & Hl & Hm & _ & Huniq).
  split; [|by eauto]. symmetry. by apply (Huniq j gj).
Qed.

(** X7.  In every interleaving, a goroutine between [Lock] and [Unlock]
    can always run its next statement: the pointer it calls through is not
    nil, the mutex it unlocks is held, nothing there blocks. *)
Theorem critical_section_runs (c0 c : Config P) s i g :
  initial c0 →
  schedule s c0 = Some c →
  pool c !! i = Some g →
  holds (g_pc g) = true →
  is_Some (step_at i c).
Proof.
  intros Hinit Hs Hi Hh. apply (holder_moves i c g); [|done|done].
  exact (schedule_serialized _ _ _ (initial_serialized _ Hinit) Hs).
Qed.

Lemma total_rank_insert (gs : list goroutine) i g g' :
  gs !! i = Some g →
  (total_rank (<[i := g']> gs) + rank (g_pc g)
   = total_rank gs + rank (g_pc g'))%nat.
Proof.
  revert i. induction gs as [|x gs IH]; intros [|i] Hi; simpl in *;
    try done.
  - injection Hi as ->. unfold total_rank. simpl. lia.
  - specialize (IH i Hi). unfold total_rank in *. simpl. lia.
Qed.

Lemma goroutine_step_rank op o at_pc (w : W) at_pc' w' :
  goroutine_step op o at_pc w = Some (at_pc', w') →
  (rank at_pc' < rank at_pc)%nat.
Proof.
  intros Hs.
  destruct (goroutine_step_cases _ _ _ _ _ _ Hs)
    as [(-> & -> & _)
       |[(-> & _ & _ & _ & [[-> _]|[-> _]])
        |[(-> & _ & _ & [[_ ->]|[_ [r ->]]])
         |[(-> & -> & _)
          |[(-> & -> & _)
           |(r & i & -> & -> & _)]]]]]; simpl; lia.
Qed.

Lemma step_at_rank k (c c' : Config P) :
  step_at k c = Some c' →
  (S (total_rank (pool c')) ≤ total_rank (pool c))%nat
  ∧ length (pool c') = length (pool c).
Proof.
  unfold step_at. destruct (pool c !! k) as [gk|] eqn:Hk; [|done].
  destruct (goroutine_step (g_op gk) (g_handle gk) (g_pc gk) (world c))
    as [[at_pc' w']|] eqn:Hg; [|done].
  intros [= <-]. simpl. split; [|by rewrite length_insert].
  pose proof (goroutine_step_rank _ _ _ _ _ _ Hg) as Hlt.
  pose proof (total_rank_insert (pool c) k gk
                (mkgoroutine (g_op gk) (g_handle gk) at_pc') Hk) as Heq.
  simpl in Heq. lia.
Qed.

Lemma total_rank_initial (gs : list goroutine) :
  Forall (λ g, g_pc g = Start) gs → total_rank gs = (6 * length gs)%nat.
Proof.
  induction 1 as [|g gs Hg _ IH]; [done|].
  unfold total_rank in *. simpl. rewrite Hg, IH. simpl. lia.
Qed.

(** X8.  No call runs for ever: every statement a goroutine runs brings
    its call closer to its return, so an interleaving is never longer than
    what its calls have left, and [n] calls take at most [6 n] statements
    between them. *)
Theorem calls_are_bounded (c c' : Config P) s :
  schedule s c = Some c' →
  (length s + total_rank (pool c') ≤ total_rank (pool c))%nat
  ∧ (initial c → length s ≤ 6 * length (pool c))%nat.
Proof.
  intros Hs.
  assert (Hrank : (length s + total_rank (pool c') ≤ total_rank (pool c))%nat).
  { revert c Hs. induction s as [|k s IH]; intros c Hs; simpl in Hs.
    - injection Hs as <-. simpl. lia.
    - destruct (step_at k c) as [c1|] eqn:Hk; [|done].
      destruct (step_at_rank _ _ _ Hk) as [Hlt _].
      specialize (IH c1 Hs). simpl. lia. }
  split; [done|]. intros Hinit.
  rewrite <- (total_rank_initial (pool c) Hinit). lia.
Qed.

Lemma initial_owned (c : Config P) : unlocked c → owned c.
Proof.
  intros Hfree o h Ho Hm. specialize (Hfree o h Ho). simpl in Hfree.
  congruence.
Qed.

(** A held mutex of another handle was held before; the moving
    goroutine's own mutex, if held afterwards, is held by it. *)
Lemma goroutine_step_held op o at_pc (w : W) at_pc' w' l h' :
  goroutine_step op o at_pc w = Some (at_pc', w') →
  heap w' !! l = Some h' → m h' = true →
  if decide (l = o) then holds at_pc' = true else heap w !! l = Some h'.
Proof.
  intros Hs Hl Hm.
  destruct (goroutine_step_cases _ _ _ _ _ _ Hs)
    as [(_ & -> & i & Ho & Hw')
       |[(_ & Hw' & _ & _ & [[-> _]|[-> _]])
        |[(_ & _ & Hw' & [[_ ->]|[_ [r ->]]])
         |[(_ & -> & h & Ho & Hw')
          |[(_ & -> & Hw')
           |(r & i & _ & -> & Ho & Hw')]]]]];
    case_decide as Hlo; subst; simpl; try done;
    try (rewrite Hw' in Hl; first [ done
                                  | by rewrite lookup_insert_ne in Hl ]).
  - destruct Hw' as [Hw'|[q Hw']]; rewrite Hw' in Hl; [done|].
    destruct (decide (fresh (dom (heap w)) = l)) as [<-|Hne].
    + rewrite lookup_insert_eq in Hl. injection Hl as <-. done.
    + by rewrite lookup_insert_ne in Hl.
  - destruct Hw' as [Hw'|[q Hw']]; rewrite Hw' in Hl; [done|].
    destruct (decide (fresh (dom (heap w)) = l)) as [<-|Hne].
    + rewrite lookup_insert_eq in Hl. injection Hl as <-. done.
    + by rewrite lookup_insert_ne in Hl.
  - rewrite Hw', lookup_insert_eq in Hl. injection Hl as <-. done.
Qed.

Lemma step_at_owned k (c c' : Config P) :
  owned c → step_at k c = Some c' → owned c'.
Proof.
  intros Own Hstep. unfold step_at in Hstep.
  destruct (pool c !! k) as [gk|] eqn:Hk; [|done].
  destruct (goroutine_step (g_op gk) (g_handle gk) (g_pc gk) (world c))
    as [[at_pc' w']|] eqn:Hg; [|done].
  injection Hstep as <-. intros o h' Ho Hm. simpl in *.
  pose proof (goroutine_step_held _ _ _ _ _ _ _ _ Hg Ho Hm) as Hheld.
  case_decide as Hlo.
  - exists k, (mkgoroutine (g_op gk) (g_handle gk) at_pc').
    split; [|done].
    apply list_lookup_insert_eq. by apply lookup_lt_Some in Hk.
  - destruct (Own o h' Hheld Hm) as (i & g & Hi & Hgo & Hh).
    exists i, g. split; [|done].
    rewrite list_lookup_insert_ne; [done|].
    intros <-. rewrite Hk in Hi. injection Hi as <-. done.
Qed.

Lemma schedule_owned s (c c' : Config P) :
  owned c → schedule s c = Some c' → owned c'.
Proof.
  revert c. induction s as [|k s IH]; intros c Own Hs; simpl in Hs.
  - by injection Hs as <-.
  - destruct (step_at k c) as [c1|] eqn:Hk; [|done].
    apply (IH c1); [|done]. by apply (step_at_owned k c).
Qed.

(** X9.  No deadlock: started with every mutex free, an interleaving never
    reaches a point where a call on an allocated handle has not returned
    and yet no goroutine can run. *)
Theorem no_deadlock (c0 c : Config P) s i g :
  initial c0 → unlocked c0 →
  schedule s c0 = Some c →
  pool c !! i = Some g →
  returned (g_pc g) = None →
  is_Some (heap (world c) !! g_handle g) →
  ∃ j, is_Some (step_at j c).
Proof.
  intros Hinit Hfree Hs Hi Hret [h Ho].
  pose proof (schedule_serialized _ _ _ (initial_serialized _ Hinit) Hs)
    as Inv.
  pose proof (schedule_owned _ _ _ (initial_owned _ Hfree) Hs) as Own.
  destruct (holds (g_pc g)) eqn:Hh.
  - exists i. by apply (holder_moves i c g).
  - destruct (m h) eqn:Hm.
    + destruct (Own _ _ Ho Hm) as (j & g' & Hj & _ & Hh').
      exists j. by apply (holder_moves j c g').
    + exists i. unfold step_at. rewrite Hi.
      destruct g as [op o at_pc], h as [mh ih]; simpl in *. subst mh.
      destruct at_pc; try discriminate.
      step_unfold. rewrite Ho. simpl. eauto.
Qed.

(** *** One release per pointer *)

Lemma released_app p tr1 tr2 :
  released p (tr1 ++ tr2) = (released p tr1 + released p tr2)%nat.
Proof.
  induction tr1 as [|e tr1 IH]; simpl; [done|].
  destruct e; rewrite ?IH; lia.
Qed.

Lemma released_other p ev : is_Release ev = false → released p [ev] = 0%nat.
Proof. by destruct ev. Qed.

(** The [run] statement of a method that is no cast: one platform call
    through the handle's pointer, a [Release] for [Close] and no [Release]
    otherwise; the heap is as before. *)
Lemma proceed_effect op o (w : W) at_pc' w' :
  is_cast op = false →
  goroutine_step op o Proceeding w = Some (at_pc', w') →
  ∃ h p, heap w !! o = Some h ∧ iface h = Some p ∧ heap w' = heap w
    ∧ ((op = OpClose ∧ at_pc' = Nulling
        ∧ trace w' = trace w ++ [EvRelease p])
       ∨ (op ≠ OpClose
          ∧ ∃ ev, is_Release ev = false ∧ trace w' = trace w ++ [ev])).
Proof.
  intros Hc Hs.
  destruct (heap w !! o) as [[mh [p|]]|] eqn:Ho;
    [exists (mkobject mh (Some p)), p;
     split; [done|]; split; [done|] | exfalso | exfalso];
    destruct op; try discriminate Hc; revert Hs; step_unfold;
    rewrite Ho; simpl; intros Hs; split_platform Hs; try discriminate;
    injection Hs as <- <-; simpl; (split; [done|]);
    first [ left; done
          | right; split; [done|]; eexists; split; [|reflexivity]; done ].
Qed.

(** A statement of a method that is no cast keeps every pointer where it
    is, or nulls the pointer of its own handle. *)
Lemma goroutine_step_iface op o at_pc (w : W) at_pc' w' :
  is_cast op = false →
  goroutine_step op o at_pc w = Some (at_pc', w') →
  ∀ l h', heap w' !! l = Some h' →
    ∃ h, heap w !! l = Some h
      ∧ (iface h' = iface h ∨ (at_pc = Nulling ∧ l = o ∧ iface h' = None)).
Proof.
  intros Hc Hs l h' Hl.
  destruct (goroutine_step_cases _ _ _ _ _ _ Hs)
    as [(_ & _ & i & Ho & Hw')
       |[(_ & Hw' & _)
        |[(Hpc & _)
         |[(Hpc & _ & h & Ho & Hw')
          |[(_ & _ & Hw')
           |(r & i & _ & _ & Ho & Hw')]]]]].
  - rewrite Hw' in Hl. destruct (decide (l = o)) as [->|Hne].
    + rewrite lookup_insert_eq in Hl. injection Hl as <-. eauto.
    + rewrite lookup_insert_ne in Hl by done. eauto.
  - rewrite Hw' in Hl. eauto.
  - subst at_pc.
    destruct (proceed_effect _ _ _ _ _ Hc Hs) as (_ & _ & _ & _ & Hw' & _).
    rewrite Hw' in Hl. eauto.
  - rewrite Hw' in Hl. destruct (decide (l = o)) as [->|Hne].
    + rewrite lookup_insert_eq in Hl. injection Hl as <-.
      exists h. split; [done|]. right. done.
    + rewrite lookup_insert_ne in Hl by done. eauto.
  - rewrite Hw' in Hl. eauto.
  - rewrite Hw' in Hl. destruct (decide (l = o)) as [->|Hne].
    + rewrite lookup_insert_eq in Hl. injection Hl as <-. eauto.
    + rewrite lookup_insert_ne in Hl by done. eauto.
Qed.

(** What a statement does to the releases in the trace. *)
Lemma goroutine_step_releases op o at_pc (w : W) at_pc' w' :
  is_cast op = false →
  goroutine_step op o at_pc w = Some (at_pc', w') →
  (∀ p, released p (trace w') = released p (trace w))
  ∨ (at_pc = Proceeding ∧ op = OpClose ∧ at_pc' = Nulling
     ∧ heap w' = heap w
     ∧ ∃ h q, heap w !! o = Some h ∧ iface h = Some q
              ∧ trace w' = trace w ++ [EvRelease q]).
Proof.
  intros Hc Hs.
  assert (Hquiet : at_pc ≠ Proceeding →
            ∀ p, released p (trace w') = released p (trace w)).
  { intros Hne p.
    by destruct (goroutine_step_quiet _ _ _ _ _ _ Hne Hs) as [-> _]. }
  destruct at_pc as [| | | | |r|r]; try (left; by apply Hquiet).
  destruct (proceed_effect _ _ _ _ _ Hc Hs)
    as (h & q & Ho & Hq & Hw' & [(-> & -> & Htr)|(_ & ev & Hev & Htr)]).
  - right. eauto 10.
  - left. intros p. rewrite Htr, released_app, released_other by done.
    lia.
Qed.

Lemma step_at_release_once n0 k (c c' : Config P) :
  serialized c →
  unshared (heap (world c)) →
  Forall (λ g, is_cast (g_op g) = false) (pool c) →
  release_once n0 c →
  step_at k c = Some c' →
  unshared (heap (world c'))
  ∧ Forall (λ g, is_cast (g_op g) = false) (pool c')
  ∧ release_once n0 c'.
Proof.
  intros Inv Hun Hfree Hrel Hstep. unfold step_at in Hstep.
  destruct (pool c !! k) as [gk|] eqn:Hk; [|done].
  destruct (goroutine_step (g_op gk) (g_handle gk) (g_pc gk) (world c))
    as [[at_pc' w']|] eqn:Hg; [|done].
  injection Hstep as <-. simpl.
  assert (Hck : is_cast (g_op gk) = false).
  { by apply (proj1 (Forall_lookup _ _) Hfree k gk). }
  pose proof (goroutine_step_iface _ _ _ _ _ _ Hck Hg) as Hback.
  split; [|split].
  - intros l1 l2 h1 h2 p Hl1 Hl2 Hp1 Hp2.
    destruct (Hback _ _ Hl1) as (x1 & Hx1 & [He1|(_ & _ & He1)]);
      [|congruence].
    destruct (Hback _ _ Hl2) as (x2 & Hx2 & [He2|(_ & _ & He2)]);
      [|congruence].
    apply (Hun l1 l2 x1 x2 p); congruence.
  - apply Forall_insert; [done|]. done.
  - (* a goroutine that was nulling a handle whose pointer is still there
       is still nulling it *)
    assert (Hkeep : ∀ l h' p, heap w' !! l = Some h' → iface h' = Some p →
              (∃ i g, pool c !! i = Some g ∧ g_handle g = l
                      ∧ g_pc g = Nulling) →
              ∃ i g,
                <[k := mkgoroutine (g_op gk) (g_handle gk) at_pc']> (pool c)
                  !! i = Some g
                ∧ g_handle g = l ∧ g_pc g = Nulling).
    { intros l h' p Hl Hp (i & g & Hi & Hgl & Hgn).
      destruct (decide (i = k)) as [->|Hik].
      - exfalso. rewrite Hk in Hi. injection Hi as <-.
        destruct (goroutine_step_cases _ _ _ _ _ _ Hg)
          as [(Hx & _)|[(Hx & _)|[(Hx & _)
             |[(_ & _ & h & Ho & Hw')|[(Hx & _)|(? & ? & Hx & _)]]]]];
          try congruence.
        rewrite Hw', Hgl, lookup_insert_eq in Hl. injection Hl as <-.
        simpl in Hp. done.
      - exists i, g. by rewrite list_lookup_insert_ne. }
    destruct (goroutine_step_releases _ _ _ _ _ _ Hck Hg)
      as [Hsame|(Hpc & Hop & -> & Hw' & h & q & Ho & Hq & Htr)].
    + intros p. simpl. rewrite Hsame.
      destruct (Hrel p) as [Hn|[Hn Hnull]]; [by left|]. right.
      split; [done|]. intros l h' Hl Hp.
      destruct (Hback _ _ Hl) as (x & Hx & [He|(_ & _ & He)]);
        [|congruence].
      apply (Hkeep l h' p); [done|done|].
      apply (Hnull l x); congruence.
    + intros p. simpl. rewrite Htr, released_app. simpl.
      destruct (Pos.eqb q p) eqn:Hqp.
      * apply Pos.eqb_eq in Hqp. subst p.
        destruct (Hrel q) as [Hn|[Hn Hnull]].
        -- right. split; [lia|]. intros l h' Hl Hp.
           rewrite Hw' in Hl.
           assert (l = g_handle gk) as ->
             by (apply (Hun l (g_handle gk) h' h q); done).
           exists k, (mkgoroutine (g_op gk) (g_handle gk) Nulling).
           split; [|done].
           apply list_lookup_insert_eq. by apply lookup_lt_Some in Hk.
        -- exfalso.
           destruct (Hnull _ _ Ho Hq) as (i & g & Hi & Hgl & Hgn).
           destruct (Inv k gk Hk) as [Hhold _].
           destruct Hhold as (_ & _ & _ & _ & Huniq); [by rewrite Hpc|].
           assert (i = k) as -> by (apply (Huniq i g); [done|done|];
                                    by rewrite Hgn).
           rewrite Hk in Hi. injection Hi as <-. congruence.
      * destruct (Hrel p) as [Hn|[Hn Hnull]]; [left; lia|]. right.
        split; [lia|]. intros l h' Hl Hp.
        apply (Hkeep l h' p); [done|done|].
        rewrite Hw' in Hl. by apply (Hnull l h').
Qed.

(** X10.  One release per pointer: when no two handles wrap the same
    pointer and no goroutine casts, every interleaving of [Close] calls
    and accessors releases each pointer at most once, however many
    goroutines close the same handle at the same time. *)
Theorem released_at_most_once (c0 c : Config P) s p :
  initial c0 →
  unshared (heap (world c0)) →
  Forall (λ g, is_cast (g_op g) = false) (pool c0) →
  schedule s c0 = Some c →
  (released p (trace (world c)) ≤ S (released p (trace (world c0))))%nat.
Proof.
  intros Hinit Hun Hfree Hs.
  assert (Hall : ∀ s c1 c2,
            serialized c1 → unshared (heap (world c1)) →
            Forall (λ g, is_cast (g_op g) = false) (pool c1) →
            release_once (λ q, released q (trace (world c0))) c1 →
            schedule s c1 = Some c2 →
            release_once (λ q, released q (trace (world c0))) c2).
  { clear. intros s. induction s as [|k s IH]; intros c1 c2 Inv Hun Hfree Hr Hs;
      simpl in Hs.
    - by injection Hs as <-.
    - destruct (step_at k c1) as [c1'|] eqn:Hk; [|done].
      destruct (step_at_release_once _ _ _ _ Inv Hun Hfree Hr Hk)
        as (Hun' & Hfree' & Hr').
      apply (IH c1' c2); try done. by apply (step_at_serialized k c1). }
  assert (Hr : release_once (λ q, released q (trace (world c0))) c).
  { apply (Hall s c0 c); try done.
    - by apply initial_serialized.
    - intros q. by left. }
  destruct (Hr p) as [->|[-> _]]; lia.
Qed.

(** X11.  A handle constructed around a nil pointer is closed from its
    first moment: [NewObject] hands it out at a new address all the same,
    and every accessor and cast on it answers the closed-handle error
    without a platform call, while [Close] on it does nothing. *)
Theorem nil_handle_is_born_closed (w : W) :
  ∃ l w1,
    NewObject None w = Some (l, w1)
    ∧ heap w !! l = None
    ∧ (∀ l' h, heap w !! l' = Some h → heap w1 !! l' = Some h)
    ∧ ∀ op, perform op l w1 = Some (closed_result op, w1).
Proof.
  eexists _, _. split; [apply NewObject_eq|].
  split; [apply fresh_loc_fresh|]. split.
  - intros l' h Hl. simpl. rewrite lookup_insert_ne; [done|].
    apply fresh_loc_ne. by rewrite Hl.
  - intros op. apply perform_closed. simpl. apply lookup_insert_eq.
Qed.

End AdsiFacts.

(** * The properties on the mocked platform *)

(** The scenario of the design's section 8: a handle is made, [Name]
    answers ["example-object"], the handle is closed, and [Name] answers
    the closed-handle error, with one [Name] call and one [Release] seen by
    the platform. *)
Example end_to_end :
  (o ← NewObject (Some 1%positive);
   a ← Name o;
   Close o;;
   b ← Name o;
   mret (a, b)) Mock.empty
  = Some ((("example-object", None), ("", Some ErrClosed)),
          mkWorld {[ 1%positive := mkobject false None ]} 0 2%nat
                  [EvName 1%positive; EvRelease 1%positive]).
Proof. vm_compute. reflexivity. Qed.

Lemma closed_handle_answers_ErrClosed_witness :
  perform OpGUID 1%positive Mock.later
  = Some (closed_result OpGUID, Mock.later).
Proof.
  apply (closed_handle_answers_ErrClosed
           (Mock.one_open 1%positive) Mock.closed_once Mock.later
           1%positive Mock.busy OpGUID).
  - vm_compute. reflexivity.
  - vm_compute. reflexivity.
  - discriminate.
Defined.

Lemma Close_idempotent_witness :
  Close_times 3 1%positive Mock.closed_once = Some ((), Mock.closed_once).
Proof.
  apply (Close_idempotent (Mock.one_open 1%positive) Mock.closed_once
           1%positive 3).
  vm_compute. reflexivity.
Defined.

Lemma handle_state_machine_witness :
  ∃ h', heap Mock.later !! 1%positive = Some h'
    ∧ (iface h' = None ↔ state_of h' = CLOSED)
    ∧ (∃ b, closed 1%positive Mock.later = Some (b, Mock.later)
            ∧ (b = true ↔ state_of h' = CLOSED))
    ∧ (state_of h' = OPEN ∨ state_of h' = CLOSED)
    ∧ (state_of (mkobject false None) = CLOSED → state_of h' = CLOSED)
    ∧ (CallOp OpClose 1%positive ∈ Mock.busy → state_of h' = CLOSED)
    ∧ (state_of (mkobject false None) = OPEN → state_of h' = CLOSED →
       CallOp OpClose 1%positive ∈ Mock.busy).
Proof.
  apply (handle_state_machine Mock.closed_once Mock.later Mock.busy
           1%positive (mkobject false None)).
  - vm_compute. reflexivity.
  - vm_compute. reflexivity.
Defined.

Lemma GUID_unparsable_witness :
  GUID 1%positive (Mock.one_open 2%positive)
  = Some ((None, Some ErrInvalidGUID),
          mkWorld (heap (Mock.one_open 2%positive))
                  (comshim (Mock.one_open 2%positive)) 1%nat
                  (trace (Mock.one_open 2%positive) ++ [EvGUID 2%positive]))
  ∧ ∀ hr, ErrInvalidGUID ≠ PlatformError hr.
Proof.
  apply (GUID_unparsable (Mock.one_open 2%positive) 1%positive 2%positive
           "garbage" 1%nat).
  - vm_compute. reflexivity.
  - vm_compute. reflexivity.
  - vm_compute. reflexivity.
Defined.

Lemma cast_independent_witness :
  ∃ d w1,
    perform OpToContainer 1%positive (Mock.one_open 1%positive)
    = Some (RHandle (Some d) None, w1)
    ∧ heap (Mock.one_open 1%positive) !! d = None
    ∧ heap w1 !! d = Some (mkobject false (Some 101%positive))
    ∧ heap w1 !! 1%positive = heap (Mock.one_open 1%positive) !! 1%positive
    ∧ (∃ w2, Close 1%positive w1 = Some ((), w2)
             ∧ heap w2 !! 1%positive = Some (mkobject false None)
             ∧ heap w2 !! d = heap w1 !! d)
    ∧ (∃ w2, Close d w1 = Some ((), w2)
             ∧ heap w2 !! d = Some (mkobject false None)
             ∧ heap w2 !! 1%positive = heap w1 !! 1%positive).
Proof.
  apply (cast_independent (Mock.one_open 1%positive) OpToContainer
           1%positive 1%positive (Some 101%positive) 1%nat).
  - reflexivity.
  - vm_compute. reflexivity.
  - vm_compute. reflexivity.
Defined.

Lemma cast_failure_surfaced_witness :
  ∃ w1,
    perform OpToGroup 1%positive (Mock.one_open 1%positive)
    = Some (RHandle None (Some (PlatformError Mock.E_NOINTERFACE)), w1)
    ∧ heap w1 = heap (Mock.one_open 1%positive)
    ∧ comshim w1 = comshim (Mock.one_open 1%positive)
    ∧ trace w1 = trace (Mock.one_open 1%positive)
                 ++ [EvQueryInterface 1%positive (cast_iid OpToGroup)].
Proof.
  apply (cast_failure_surfaced (Mock.one_open 1%positive) OpToGroup
           1%positive 1%positive None Mock.E_NOINTERFACE 1%nat).
  - reflexivity.
  - vm_compute. reflexivity.
  - vm_compute. reflexivity.
Defined.

Lemma Close_always_closes_witness :
  ∃ w1,
    Close 1%positive (Mock.one_open 1%positive) = Some ((), w1)
    ∧ heap w1 = <[1%positive := mkobject false None]>
                  (heap (Mock.one_open 1%positive))
    ∧ comshim w1 = comshim (Mock.one_open 1%positive) - 1
    ∧ closed 1%positive w1 = Some (true, w1).
Proof.
  apply (Close_always_closes (Mock.one_open 1%positive) 1%positive
           1%positive 0 1%nat).
  - vm_compute. reflexivity.
  - vm_compute. reflexivity.
Defined.

(** Outside that lifecycle the count stays up.  A handle constructed
    around a nil pointer is closed from the start: its [Close] returns at
    the [closed()] test, before [comshim.Done] is deferred.  And a handle
    that is never closed keeps its count. *)
Lemma count_kept_without_release :
  comshim Mock.empty = 0
  ∧ (∃ w', lifecycle None 1 Mock.empty = Some ((), w') ∧ comshim w' = 1)
  ∧ (∃ w', lifecycle (Some 1%positive) 0 Mock.empty = Some ((), w')
           ∧ comshim w' = 1).
Proof.
  split; [reflexivity|].
  split; eexists; (split; [vm_compute; reflexivity|reflexivity]).
Qed.

Lemma Close_serializes_accessors_witness :
  Locked ≠ Proceeding
  ∧ ∀ c', step_at 1 Mock.raced = Some c' →
      trace (world c') = trace (world Mock.raced)
      ∧ (Locked = Locked →
         pool c' !! 1%nat =
           Some (mkgoroutine OpName 1%positive
                   (Leaving (closed_result OpName)))).
Proof.
  apply (Close_serializes_accessors Mock.racing Mock.raced Mock.close_first
           0%nat 1%nat
           (mkgoroutine OpClose 1%positive (Returned RNothing))
           (mkgoroutine OpName 1%positive Locked) RNothing).
  - repeat constructor.
  - vm_compute. reflexivity.
  - vm_compute. reflexivity.
  - reflexivity.
  - reflexivity.
  - vm_compute. reflexivity.
  - reflexivity.
Defined.

(** ** The further properties on the mocked platform *)

Lemma accessor_passthrough_witness :
  perform OpSchema 1%positive (Mock.one_open 1%positive)
  = Some (RString "" (Some (PlatformError Mock.E_FAIL)),
          mkWorld (heap (Mock.one_open 1%positive))
                  (comshim (Mock.one_open 1%positive)) 1%nat
                  (trace (Mock.one_open 1%positive) ++ [EvSchema 1%positive])).
Proof.
  exact (accessor_passthrough (Mock.one_open 1%positive) OpSchema
           1%positive 1%positive
           ltac:(reflexivity) ltac:(vm_compute; reflexivity)).
Defined.

Lemma GUID_value_xor_error_witness :
  (is_Some (Some (mkGUID 0 0 0 (replicate 8 0))) ↔ @None error = None)
  ∧ ∀ x, Some (mkGUID 0 0 0 (replicate 8 0)) = Some x →
      ∃ p s, heap (Mock.one_open 1%positive) !! 1%positive
             = Some (mkobject false (Some p))
             ∧ (IADs_GUID p (plat (Mock.one_open 1%positive))).1 = (s, None)
             ∧ NewGUID s = Some x.
Proof.
  apply (GUID_value_xor_error (Mock.one_open 1%positive)
           (Mock.after (GUID 1%positive) (Mock.one_open 1%positive))
           1%positive).
  vm_compute. reflexivity.
Defined.

Lemma locks_restored_witness :
  (∃ i, heap (Mock.one_open 1%positive) !! 1%positive
        = Some (mkobject false i))
  ∧ dom (heap Mock.closed_once) = dom (heap (Mock.one_open 1%positive))
  ∧ ∀ l h, heap (Mock.one_open 1%positive) !! l = Some h →
      ∃ h', heap Mock.closed_once !! l = Some h' ∧ m h' = m h.
Proof.
  apply (locks_restored (Mock.one_open 1%positive) Mock.closed_once
           OpClose 1%positive RNothing).
  - reflexivity.
  - vm_compute. reflexivity.
Defined.

Lemma count_covers_open_handles_witness :
  comshim (Mock.one_open 1%positive)
    - Z.of_nat (open_handles (heap (Mock.one_open 1%positive)))
  ≤ comshim Mock.after_plain
    - Z.of_nat (open_handles (heap Mock.after_plain)).
Proof.
  apply (count_covers_open_handles Mock.plain).
  - repeat constructor.
  - vm_compute. reflexivity.
Defined.

Lemma count_is_constructions_minus_releases_witness :
  comshim Mock.after_plain - comshim (Mock.one_open 1%positive)
  = (Z.of_nat (size (heap Mock.after_plain))
     - Z.of_nat (size (heap (Mock.one_open 1%positive))))
    - (Z.of_nat (releases (trace Mock.after_plain))
       - Z.of_nat (releases (trace (Mock.one_open 1%positive)))).
Proof.
  apply (count_is_constructions_minus_releases Mock.plain).
  - repeat constructor.
  - vm_compute. reflexivity.
Defined.

Lemma mutual_exclusion_witness :
  1%nat = 1%nat
  ∧ ∃ h, heap (world Mock.raced) !! 1%positive = Some h ∧ m h = true.
Proof.
  apply (mutual_exclusion Mock.racing Mock.raced Mock.close_first
           1%nat 1%nat
           (mkgoroutine OpName 1%positive Locked)
           (mkgoroutine OpName 1%positive Locked)).
  - repeat constructor.
  - vm_compute. reflexivity.
  - vm_compute. reflexivity.
  - vm_compute. reflexivity.
  - reflexivity.
  - reflexivity.
  - reflexivity.
Defined.

Lemma critical_section_runs_witness : is_Some (step_at 1 Mock.raced).
Proof.
  apply (critical_section_runs Mock.racing Mock.raced Mock.close_first
           1%nat (mkgoroutine OpName 1%positive Locked)).
  - repeat constructor.
  - vm_compute. reflexivity.
  - vm_compute. reflexivity.
  - reflexivity.
Defined.

Lemma calls_are_bounded_witness :
  (length Mock.name_then_close + total_rank (pool Mock.all_closed)
   ≤ total_rank (pool Mock.closers))%nat
  ∧ (initial Mock.closers →
     length Mock.name_then_close ≤ 6 * length (pool Mock.closers))%nat.
Proof.
  apply (calls_are_bounded Mock.closers Mock.all_closed
           Mock.name_then_close).
  vm_compute. reflexivity.
Defined.

Lemma no_deadlock_witness : ∃ j, is_Some (step_at j Mock.raced).
Proof.
  apply (no_deadlock Mock.racing Mock.raced Mock.close_first 1%nat
           (mkgoroutine OpName 1%positive Locked)).
  - repeat constructor.
  - apply map_Forall_singleton. reflexivity.
  - vm_compute. reflexivity.
  - vm_compute. reflexivity.
  - reflexivity.
  - vm_compute. eauto.
Defined.

Lemma released_at_most_once_witness :
  (released 1%positive (trace (world Mock.all_closed))
   ≤ S (released 1%positive (trace (world Mock.closers))))%nat.
Proof.
  apply (released_at_most_once Mock.closers Mock.all_closed
           Mock.name_then_close 1%positive).
  - repeat constructor.
  - intros l1 l2 h1 h2 p H1 H2 _ _.
    unfold Mock.closers, Mock.one_open in H1, H2. simpl in H1, H2.
    apply lookup_singleton_Some in H1 as [<- _].
    by apply lookup_singleton_Some in H2 as [<- _].
  - repeat constructor.
  - vm_compute. reflexivity.
Defined.
